(** * MultiUse-Discord-Bot: interaction dispatch, cooldowns and lifecycle

    A shallow embedding of [src/index.js]: the [InteractionCreate] listener
    with its per-command, per-user cooldown maps and its try/catch boundary,
    the start-up check of the environment, [init], [gracefulShutdown] and the
    process-level fault listeners.

    Conventions of the embedding.
    - Times are [Date.now()] values: integer milliseconds, in [Z].
    - [client.cooldowns] is a discord.js [Collection] (a JS [Map]) from
      command name to a [Collection] from user id to the time of the last
      admitted invocation: a [gmap string (gmap string Z)].
    - Calls into collaborators (a command's [execute], [handleTicketButton],
      [interaction.reply], [interaction.followUp], [client.login]) are
      oracles of the environment: each says whether the promise settles with
      a fault.  What the listener itself does is recorded, in program order,
      as a list of [Effect]s.
    - [setTimeout] adds a pending timer to the state; its callback runs in a
      later step. *)

From stdpp Require Import base strings list gmap fin_maps.
From Stdlib Require Import ZArith Lia Ascii.

Local Open Scope Z_scope.

(** ** Values shared by the listeners *)

(** A thrown value or rejection reason, by the three views the code takes of
    it: [`${error}`], [error.message] and [error.stack]. *)
Record Thrown := {
  text : string;
  message : string;
  stack : string
}.

Inductive Level := info | warn | error.

(** The [content] of a reply.  The throttle notice is
    [`Please wait ${timeLeft.toFixed(1)} more seconds before using the
    \`${command.data.name}\` command.`] with [timeLeft = timeLeftMs / 1000];
    the rendering of the number is floating point and is not reproduced, the
    exact number of milliseconds is kept instead. *)
Inductive Content :=
  | WaitNotice (timeLeftMs : Z) (name : string)
  | Text (s : string).

Record Payload := {
  content : Content;
  ephemeral : bool
}.

Inductive Effect :=
  | LoggerLog (lvl : Level) (line : string)
  | ConsoleError (line : string)
  | ConsoleErrorWith (label : string) (e : Thrown)
  | InteractionReply (p : Payload)
  | InteractionFollowUp (p : Payload)
  | CommandExecute (name : string)
  | HandleTicketButton (customId : string)
  | SetupLogger
  | ClientLogin (token : string)
  | ClientDestroy
  | ProcessExit (code : Z).

(** How the promise of an [async] listener settles. *)
Inductive Outcome :=
  | Resolved
  | Rejected (e : Thrown).

Definition isNotification (e : Effect) : bool :=
  match e with
  | InteractionReply _ | InteractionFollowUp _ => true
  | _ => false
  end.

Definition isExecute (e : Effect) : bool :=
  match e with
  | CommandExecute _ => true
  | _ => false
  end.

Definition isExit (e : Effect) : bool :=
  match e with
  | ProcessExit _ => true
  | _ => false
  end.

Definition isLogin (e : Effect) : bool :=
  match e with
  | ClientLogin _ => true
  | _ => false
  end.

Definition isDestroy (e : Effect) : bool :=
  match e with
  | ClientDestroy => true
  | _ => false
  end.

Definition count (p : Effect -> bool) (tr : list Effect) : nat :=
  length (List.filter p tr).

(** ** The interaction router (index.js, lines 98-166) *)

Module Router.

Inductive InteractionKind :=
  | ChatInputCommand (commandName : string)
  | Button (customId : string)
  | OtherInteraction.

Record User := {
  id : string;
  tag : string
}.

Record Interaction := {
  kind : InteractionKind;
  user : User
}.

(** What an awaited collaborator leaves behind: whether it faulted, and the
    [replied] / [deferred] flags of the interaction when it settled (both are
    false when the listener starts; only the collaborator sets them). *)
Record Settled := {
  fault : option Thrown;
  replied : bool;
  deferred : bool
}.

Record Command := {
  data_name : string;
  cooldown : option Z;
  execute : Interaction -> Settled
}.

Record World := {
  commands : gmap string Command;
  handleTicketButton : Interaction -> Settled;
  reply : Interaction -> Payload -> option Thrown;
  followUp : Interaction -> Payload -> option Thrown
}.

(** A pending [setTimeout(() => timestamps.delete(interaction.user.id),
    cooldownAmount)].  The closure keeps the [timestamps] Collection itself;
    entries of [client.cooldowns] are only ever added (line 113, guarded by
    [has]), never replaced or removed, so that object is the one stored under
    [t_name] for the rest of the run. *)
Record Timer := {
  set_at : Z;
  delay : Z;
  t_name : string;
  t_user : string
}.

Record State := {
  cooldowns : gmap string (gmap string Z);
  timers : list Timer
}.

Record Result := {
  state : State;
  effects : list Effect;
  outcome : Outcome
}.

(** [command.cooldown || 3]: an absent cooldown and the falsy number 0 both
    give 3. *)
Definition cooldownSeconds (command : Command) : Z :=
  match cooldown command with
  | Some n => if n =? 0 then 3 else n
  | None => 3
  end.

(** Line 118. *)
Definition cooldownAmount (command : Command) : Z :=
  cooldownSeconds command * 1000.

(** Lines 112-114. *)
Definition ensureCollection (name : string)
    (cds : gmap string (gmap string Z)) : gmap string (gmap string Z) :=
  match cds !! name with
  | Some _ => cds
  | None => <[name := ∅]> cds
  end.

(** Lines 120-130: [Some timeLeftMs] when the listener takes the early
    return, with [timeLeftMs = expirationTime - now]. *)
Definition throttle (timestamps : gmap string Z) (uid : string)
    (now amount : Z) : option Z :=
  match timestamps !! uid with
  | Some t =>
      let expirationTime := t + amount in
      if now <? expirationTime then Some (expirationTime - now) else None
  | None => None
  end.

(** Lines 151-154. *)
Definition replyContent : Payload :=
  {| content := Text "There was an error while executing this command!";
     ephemeral := true |}.

(** The catch block, lines 147-165; [s] carries the flags of the interaction
    at the time of the fault. *)
Definition catchBlock (W : World) (i : Interaction) (s : Settled)
    (e : Thrown) : list Effect :=
  LoggerLog error ("Error handling interaction: " +:+ text e) ::
  (if replied s || deferred s then
     InteractionFollowUp replyContent ::
     match followUp W i replyContent with
     | Some err => [LoggerLog error ("Could not send error followup: " +:+ text err)]
     | None => []
     end
   else
     InteractionReply replyContent ::
     match reply W i replyContent with
     | Some err => [LoggerLog error ("Could not send error reply: " +:+ text err)]
     | None => []
     end).

(** The listener of [Events.InteractionCreate]. *)
Definition onInteractionCreate (W : World) (st : State) (now : Z)
    (i : Interaction) : Result :=
  match kind i with
  | ChatInputCommand commandName =>
      match commands W !! commandName with
      | None =>
          {| state := st;
             effects := [LoggerLog warn ("Command not found: " +:+ commandName)];
             outcome := Resolved |}
      | Some command =>
          let name := data_name command in
          let cds := ensureCollection name (cooldowns st) in
          let timestamps := default ∅ (cds !! name) in
          let amount := cooldownAmount command in
          match throttle timestamps (id (user i)) now amount with
          | Some timeLeftMs =>
              (* return interaction.reply(...): the promise is returned, not
                 awaited, so the try block is left before it settles *)
              let p := {| content := WaitNotice timeLeftMs name;
                          ephemeral := true |} in
              {| state := {| cooldowns := cds; timers := timers st |};
                 effects := [InteractionReply p];
                 outcome := match reply W i p with
                            | Some e => Rejected e
                            | None => Resolved
                            end |}
          | None =>
              let st' :=
                {| cooldowns := <[name := <[id (user i) := now]> timestamps]> cds;
                   timers := timers st ++
                     [{| set_at := now; delay := amount;
                         t_name := name; t_user := id (user i) |}] |} in
              let s := execute command i in
              match fault s with
              | None =>
                  {| state := st';
                     effects :=
                       [CommandExecute name;
                        LoggerLog info ("Command executed: " +:+ commandName
                                        +:+ " by " +:+ tag (user i))];
                     outcome := Resolved |}
              | Some e =>
                  {| state := st';
                     effects := CommandExecute name :: catchBlock W i s e;
                     outcome := Resolved |}
              end
          end
      end
  | Button customId =>
      if String.prefix "ticket_" customId then
        let s := handleTicketButton W i in
        match fault s with
        | None =>
            {| state := st;
               effects := [HandleTicketButton customId];
               outcome := Resolved |}
        | Some e =>
            {| state := st;
               effects := HandleTicketButton customId :: catchBlock W i s e;
               outcome := Resolved |}
        end
      else {| state := st; effects := []; outcome := Resolved |}
  | OtherInteraction =>
      {| state := st; effects := []; outcome := Resolved |}
  end.

(** *** Timers *)

(** Node runs a callback no earlier than its delay, and replaces a delay
    below 1 or above 2^31-1 by 1. *)
Definition clampDelay (d : Z) : Z :=
  if (d <? 1) || (2147483647 <? d) then 1 else d.

Definition due (tm : Timer) : Z := set_at tm + clampDelay (delay tm).

(** The callback [() => timestamps.delete(interaction.user.id)]. *)
Definition runTimer (tm : Timer)
    (cds : gmap string (gmap string Z)) : gmap string (gmap string Z) :=
  match cds !! t_name tm with
  | Some timestamps => <[t_name tm := delete (t_user tm) timestamps]> cds
  | None => cds
  end.

Definition fireTimer (k : nat) (st : State) : State :=
  match timers st !! k with
  | Some tm =>
      {| cooldowns := runTimer tm (cooldowns st);
         timers := delete k (timers st) |}
  | None => st
  end.

(** One turn of the event loop at time [now]: an interaction is dispatched,
    or a pending timer that is due runs. *)
Inductive step (W : World) (now : Z) : State -> State -> Prop :=
  | step_interaction st i :
      step W now st (state (onInteractionCreate W st now i))
  | step_timer st k tm :
      timers st !! k = Some tm ->
      due tm <= now ->
      step W now st (fireTimer k st).

(** Turns at non-decreasing times, the last one no later than [t']. *)
Inductive run (W : World) : Z -> State -> Z -> State -> Prop :=
  | run_done t t' st : t <= t' -> run W t st t' st
  | run_turn t t1 t' st st1 st' :
      t <= t1 ->
      step W t1 st st1 ->
      run W t1 st1 t' st' ->
      run W t st t' st'.

(** The stored time of the last admitted invocation of [name] by [uid]. *)
Definition entry (st : State) (name uid : string) : option Z :=
  cooldowns st !! name ≫= λ timestamps, timestamps !! uid.

Definition initialState : State := {| cooldowns := ∅; timers := [] |}.

(** The timer that line 133 sets. *)
Definition deletionTimer (name uid : string) (now amount : Z) : Timer :=
  {| set_at := now; delay := amount; t_name := name; t_user := uid |}.

(** The time at which an entry stored at [t] stops throttling: the
    [expirationTime] of line 121.  The code stores [t] and adds the cooldown
    at each check. *)
Definition expiry (command : Command) (t : Z) : Z :=
  t + cooldownAmount command.

(** The two ways the cooldown check of a known command ends, read off the
    result of the listener.  Allowed: the invocation is recorded under
    (command, caller), its removal is scheduled, and [execute] is called.
    Throttled: the registry is as before and the only effect is the
    ephemeral notice of the remaining time. *)
Definition allowed (command : Command) (i : Interaction) (now : Z)
    (st : State) (r : Result) : Prop :=
  entry (state r) (data_name command) (id (user i)) = Some now ∧
  timers (state r) =
    timers st ++ [deletionTimer (data_name command) (id (user i)) now
                    (cooldownAmount command)] ∧
  ∃ rest, effects r = CommandExecute (data_name command) :: rest.

(** The reply of lines 125-128. *)
Definition waitNotice (command : Command) (remainingMs : Z) : Payload :=
  {| content := WaitNotice remainingMs (data_name command); ephemeral := true |}.

Definition throttled (command : Command) (remainingMs : Z)
    (st : State) (r : Result) : Prop :=
  state r = st ∧
  effects r = [InteractionReply (waitNotice command remainingMs)].

(** No pending timer would delete the entry of ([name], [uid]). *)
Definition noTimerFor (name uid : string) (st : State) : Prop :=
  ∀ tm, tm ∈ timers st → ¬ (t_name tm = name ∧ t_user tm = uid).

(** The entry that an invocation of ([name], [uid]) at [t0] left is still
    there, and every timer that would delete it is due no earlier than
    [t0 + amount]. *)
Definition windowHeld (name uid : string) (t0 amount : Z) (st : State) : Prop :=
  entry st name uid = Some t0 ∧
  ∀ tm, tm ∈ timers st → t_name tm = name → t_user tm = uid →
    t0 + amount ≤ due tm.

(** Commands are registered under their own name. *)
Definition registeredByName (W : World) : Prop :=
  ∀ commandName command,
    commands W !! commandName = Some command → data_name command = commandName.

End Router.

(** ** Start-up, shutdown and process-level faults (index.js, lines 12-82
    and 179-199) *)

Module Lifecycle.

(** A run of synchronous code that may call [process.exit]: the trace so
    far, and either a value or the exit status.  Nothing after an exit
    runs. *)
Inductive Proc (A : Type) : Type :=
  | Running (tr : list Effect) (a : A)
  | Exited (tr : list Effect) (code : Z).
Arguments Running {A} tr a.
Arguments Exited {A} tr code.

#[export] Instance proc_ret : MRet Proc := λ A a, Running [] a.

#[export] Instance proc_bind : MBind Proc := λ A B f m,
  match m with
  | Running tr a =>
      match f a with
      | Running tr' b => Running (tr ++ tr') b
      | Exited tr' code => Exited (tr ++ tr') code
      end
  | Exited tr code => Exited tr code
  end.

Definition emit (e : Effect) : Proc unit := Running [e] tt.
Definition exit (code : Z) : Proc unit := Exited [] code.

Fixpoint forEach {A} (l : list A) (f : A -> Proc unit) : Proc unit :=
  match l with
  | [] => mret tt
  | x :: l' => f x ;; forEach l' f
  end.

(** Everything the run did, the call of [process.exit] included. *)
Definition trace {A} (m : Proc A) : list Effect :=
  match m with
  | Running tr _ => tr
  | Exited tr code => tr ++ [ProcessExit code]
  end.

Definition exitStatus {A} (m : Proc A) : option Z :=
  match m with
  | Running _ _ => None
  | Exited _ code => Some code
  end.

(** *** checkRequiredEnvVars *)

Definition required : list string := ["DISCORD_TOKEN"; "CLIENT_ID"].

(** [!process.env[envVar]]: true for a variable that is not set and for one
    set to the empty string. *)
Definition falsy (env : gmap string string) (envVar : string) : bool :=
  match env !! envVar with
  | None => true
  | Some EmptyString => true
  | Some (String _ _) => false
  end.

Definition missingVars (env : gmap string string) : list string :=
  List.filter (falsy env) required.

Definition checkRequiredEnvVars (env : gmap string string) : Proc unit :=
  let missing := missingVars env in
  if (0 <? length missing)%nat then
    emit (ConsoleError "Error: Missing required environment variables:") ;;
    forEach missing (λ envVar, emit (ConsoleError ("- " +:+ envVar))) ;;
    emit (ConsoleError "Please add them to your .env file and restart the bot.") ;;
    exit 1
  else mret tt.

(** *** init

    [token] is [config.token] ([config.js] is not part of the sources at
    hand); [login] is how [client.login] settles.  [setupLogger] has its own
    try/catch and does not throw. *)
Definition init (env : gmap string string) (token : string)
    (login : option Thrown) : Proc unit :=
  checkRequiredEnvVars env ;;
  emit SetupLogger ;;
  emit (LoggerLog info "Starting bot...") ;;
  emit (ClientLogin token) ;;
  match login with
  | None => mret tt
  | Some e =>
      emit (ConsoleErrorWith "Failed to initialize bot:" e) ;;
      emit (LoggerLog error ("Initialization error: " +:+ message e)) ;;
      exit 1
  end.

(** The names a diagnostic lists: the lines of the form [- NAME]. *)
Definition listedName (e : Effect) : option string :=
  match e with
  | ConsoleError (String "-"%char (String " "%char name)) => Some name
  | _ => None
  end.

Definition listedNames (tr : list Effect) : list string :=
  omap listedName tr.

(** *** Signals and process-level faults

    The gateway client is discord.js's; of it the code uses [isReady()] and
    [destroy()], taken here as parameters. *)
Section Process.

Variable Client : Type.
Variable isReady : Client -> bool.
Variable destroy : Client -> Client.

(** The two [setTimeout] callbacks of this part: lines 78-81 and 51-54. *)
Inductive Callback :=
  | ShutdownComplete
  | CrashExit.

Record PTimer := {
  p_set_at : Z;
  p_delay : Z;
  p_callback : Callback
}.

(** [status] is the exit status once [process.exit] has run. *)
Record Process := {
  client : Client;
  pending : list PTimer;
  status : option Z
}.

Inductive Signal := SIGINT | SIGTERM.

Definition signalName (s : Signal) : string :=
  match s with
  | SIGINT => "SIGINT"
  | SIGTERM => "SIGTERM"
  end.

(** Lines 68-82. *)
Definition gracefulShutdown (now : Z) (p : Process) : Process * list Effect :=
  let '(c, cleanup) :=
    if isReady (client p)
    then (destroy (client p),
          [ClientDestroy; LoggerLog info "Discord client destroyed"])
    else (client p, []) in
  ({| client := c;
      pending := pending p ++
        [{| p_set_at := now; p_delay := 1500; p_callback := ShutdownComplete |}];
      status := status p |},
   LoggerLog info "Shutting down gracefully..." :: cleanup).

(** Lines 58-66. *)
Definition onSignal (s : Signal) (now : Z) (p : Process) : Process * list Effect :=
  let '(p', tr) := gracefulShutdown now p in
  (p', LoggerLog info ("Bot shutdown initiated (" +:+ signalName s +:+ ")") :: tr).

(** Lines 40-43. *)
Definition onUnhandledRejection (e : Thrown) (p : Process) : Process * list Effect :=
  (p, [LoggerLog error ("Unhandled rejection: " +:+ text e);
       ConsoleErrorWith "Unhandled rejection:" e]).

(** Lines 45-55. *)
Definition onUncaughtException (e : Thrown) (now : Z) (p : Process)
    : Process * list Effect :=
  ({| client := client p;
      pending := pending p ++
        [{| p_set_at := now; p_delay := 1000; p_callback := CrashExit |}];
      status := status p |},
   [LoggerLog error ("Uncaught exception: " +:+ message e);
    LoggerLog error (stack e);
    ConsoleErrorWith "Uncaught exception:" e]).

Definition runCallback (cb : Callback) : Proc unit :=
  match cb with
  | ShutdownComplete =>
      emit (LoggerLog info "Bot shutdown complete") ;; exit 0
  | CrashExit =>
      emit (ConsoleError "An uncaught exception caused the bot to crash. Exiting...") ;;
      exit 1
  end.

Inductive Event :=
  | Signalled (s : Signal)
  | UnhandledRejection (e : Thrown)
  | UncaughtException (e : Thrown)
  | TimerDue (k : nat).

(** One turn of the event loop at time [now].  A process that has exited
    takes no more turns; a timer runs only once its delay has passed. *)
Definition turn (now : Z) (ev : Event) (p : Process) : Process * list Effect :=
  match status p with
  | Some _ => (p, [])
  | None =>
      match ev with
      | Signalled s => onSignal s now p
      | UnhandledRejection e => onUnhandledRejection e p
      | UncaughtException e => onUncaughtException e now p
      | TimerDue k =>
          match pending p !! k with
          | Some tm =>
              if p_set_at tm + p_delay tm <=? now then
                let m := runCallback (p_callback tm) in
                ({| client := client p;
                    pending := delete k (pending p);
                    status := exitStatus m |},
                 trace m)
              else (p, [])
          | None => (p, [])
          end
      end
  end.

(** Turns in sequence, with the traces joined. *)
Fixpoint turns (evs : list (Z * Event)) (p : Process) : Process * list Effect :=
  match evs with
  | [] => (p, [])
  | (now, ev) :: evs' =>
      let '(p1, tr1) := turn now ev p in
      let '(p2, tr2) := turns evs' p1 in
      (p2, tr1 ++ tr2)
  end.

End Process.

Arguments client {Client} _.
Arguments pending {Client} _.
Arguments status {Client} _.

(** The timers that the two kinds of listener set. *)
Definition shutdownTimer (now : Z) : PTimer :=
  {| p_set_at := now; p_delay := 1500; p_callback := ShutdownComplete |}.

Definition crashTimer (now : Z) : PTimer :=
  {| p_set_at := now; p_delay := 1000; p_callback := CrashExit |}.

(** A client that reports ready until it is destroyed, and a process that
    is serving with it. *)
Definition readyFlag (c : bool) : bool := c.
Definition clearFlag (c : bool) : bool := false.

Definition serving : Process bool :=
  {| client := true; pending := []; status := None |}.

Definition rejection : Thrown :=
  {| text := "Error: socket hang up"; message := "socket hang up";
     stack := "Error: socket hang up at connResetException" |}.

End Lifecycle.

(** ** A small world to run the listeners in

    The command [ping] with the default cooldown, a command [slow] with a
    cooldown of ten seconds, a command [flaky] whose [execute] rejects, and
    two callers. *)

Module Scenario.
Import Router.

Definition boom : Thrown :=
  {| text := "Error: boom"; message := "boom"; stack := "Error: boom at run" |}.

Definition expired : Thrown :=
  {| text := "DiscordAPIError[10062]: Unknown interaction";
     message := "Unknown interaction";
     stack := "DiscordAPIError[10062]: Unknown interaction at handleErrors" |}.

Definition settles : Settled :=
  {| fault := None; replied := true; deferred := false |}.

Definition ping : Command :=
  {| data_name := "ping"; cooldown := None; execute := λ _, settles |}.

Definition slow : Command :=
  {| data_name := "slow"; cooldown := Some 10; execute := λ _, settles |}.

Definition flaky : Command :=
  {| data_name := "flaky"; cooldown := Some 5;
     execute := λ _, {| fault := Some boom; replied := false; deferred := false |} |}.

Definition registry : gmap string Command :=
  {[ "ping" := ping; "slow" := slow; "flaky" := flaky ]}.

(** Every reply is delivered. *)
Definition online : World :=
  {| commands := registry;
     handleTicketButton := λ _, {| fault := None; replied := true; deferred := false |};
     reply := λ _ _, None;
     followUp := λ _ _, None |}.

(** The interaction token has lapsed: replies and follow-ups reject. *)
Definition lapsed : World :=
  {| commands := registry;
     handleTicketButton := λ _, {| fault := Some boom; replied := false; deferred := true |};
     reply := λ _ _, Some expired;
     followUp := λ _ _, Some expired |}.

Definition U1 : User := {| id := "1001"; tag := "ada#0001" |}.
Definition U2 : User := {| id := "1002"; tag := "bob#0002" |}.

Definition slash (commandName : string) (u : User) : Interaction :=
  {| kind := ChatInputCommand commandName; user := u |}.

Definition after (W : World) (st : State) (now : Z) (i : Interaction) : State :=
  state (onInteractionCreate W st now i).

End Scenario.

(** ** Reachable registries, and the queue of timers run dry *)

Module Registry.
Import Router.

(** The first [n] pending timers run, in the order they were set. *)
Fixpoint fireFirst (n : nat) (st : State) : State :=
  match n with
  | O => st
  | S n' => fireFirst n' (fireTimer 0 st)
  end.

(** Every timer that is pending has run. *)
Definition drain (st : State) : State := fireFirst (length (timers st)) st.

(** Every entry has a pending timer for its pair, set at the stored time. *)
Definition backed (st : State) : Prop :=
  ∀ n u t, entry st n u = Some t →
    ∃ tm, tm ∈ timers st ∧ t_name tm = n ∧ t_user tm = u ∧ set_at tm = t.

(** No entry holds a time later than [now]. *)
Definition notAhead (now : Z) (st : State) : Prop :=
  ∀ n u t, entry st n u = Some t → t ≤ now.

(** Every Collection of [client.cooldowns] is stored under the name of a
    registered command. *)
Definition keysRegistered (W : World) (st : State) : Prop :=
  ∀ n, is_Some (cooldowns st !! n) →
    ∃ commandName command,
      commands W !! commandName = Some command ∧ data_name command = n.

Definition isDelegate (e : Effect) : bool :=
  match e with
  | HandleTicketButton _ => true
  | _ => false
  end.

End Registry.

(** ** The logger module (logger.js)

    winston is a collaborator: a logger is modelled by the options it is
    created with, a format by the combinators that build it, and
    [path.join(dir, name)] by its two arguments.  [config.logging] is
    [config.js]'s and is taken as a parameter. *)

Module Logger.

Inductive Format :=
  | Colorize
  | Printf
  | Timestamp (pattern : option string)
  | Combine (first second : Format).

Inductive Transport :=
  | Console (format : option Format)
  | File (dir filename : string) (level : option string) (format : Format).

Record WinstonLogger := {
  level : string;
  format : Format;
  transports : list Transport;
  exitOnError : option bool
}.

(** The template of every [printf] of the module. *)
Definition renderLine (timestamp lvl msg : string) : string :=
  "[" +:+ timestamp +:+ "] " +:+ lvl +:+ ": " +:+ msg.

(** [config.logging]. *)
Record Logging := {
  filePath : string;
  console : bool;
  file : bool;
  cfg_level : option string
}.

(** The host: the file system under [fs.existsSync] and [fs.mkdirSync], and
    whether building the transports and the logger throws. *)
Record Host := {
  existsSync : string -> bool;
  mkdirSync : string -> option Thrown;
  winston : option Thrown
}.

Inductive Did :=
  | Mkdir (dir : string)
  | Info (l : WinstonLogger) (line : string)
  | PrintError (label : string) (e : Thrown).

(** [config.logging.level || 'info']. *)
Definition levelOrInfo (l : option string) : string :=
  match l with
  | Some (String a r) => String a r
  | _ => "info"
  end.

(** Lines 28-55. *)
Definition logTransports (cfg : Logging) : list Transport :=
  (if console cfg then [Console (Some (Combine Colorize Printf))] else []) ++
  (if file cfg
   then [File (filePath cfg) "error.log" (Some "error") Printf;
         File (filePath cfg) "combined.log" None Printf]
   else []).

(** Lines 58-66. *)
Definition configured (cfg : Logging) : WinstonLogger :=
  {| level := levelOrInfo (cfg_level cfg);
     format := Combine (Timestamp (Some "YYYY-MM-DD HH:mm:ss")) Printf;
     transports := logTransports cfg;
     exitOnError := Some false |}.

(** Lines 74-83. *)
Definition fallbackLogger : WinstonLogger :=
  {| level := "info";
     format := Combine (Timestamp None) Printf;
     transports := [Console None];
     exitOnError := None |}.

(** Lines 92-101. *)
Definition defaultLogger : WinstonLogger :=
  {| level := "info";
     format := Combine (Timestamp (Some "YYYY-MM-DD HH:mm:ss")) Printf;
     transports := [Console (Some Colorize)];
     exitOnError := None |}.

(** The try block of [setupLogger] up to the creation of the logger: what it
    did, and the fault that ended it or the logger it created. *)
Definition tryBlock (cfg : Logging) (h : Host) : list Did * (Thrown + WinstonLogger) :=
  let logDir := filePath cfg in
  if existsSync h logDir then
    match winston h with
    | Some e => ([], inl e)
    | None => ([], inr (configured cfg))
    end
  else
    match mkdirSync h logDir with
    | Some e => ([Mkdir logDir], inl e)
    | None =>
        match winston h with
        | Some e => ([Mkdir logDir], inl e)
        | None => ([Mkdir logDir], inr (configured cfg))
        end
    end.

(** [current] is the module's variable [logger] after the call. *)
Record Setup := {
  current : option WinstonLogger;
  returned : WinstonLogger;
  did : list Did
}.

(** Lines 14-85; [module] is the variable [logger] before the call. *)
Definition setupLogger (cfg : Logging) (h : Host)
    (module : option WinstonLogger) : Setup :=
  match tryBlock cfg h with
  | (done, inr l) =>
      {| current := Some l;
         returned := l;
         did := done ++ [Info l "Logger initialized"] |}
  | (done, inl e) =>
      {| current := module;
         returned := fallbackLogger;
         did := done ++ [PrintError "Failed to initialize logger:" e] |}
  end.

(** The accessor [get logger()], lines 89-104: the logger it returns and the
    module's variable afterwards. *)
Definition logger (module : option WinstonLogger)
    : WinstonLogger * option WinstonLogger :=
  match module with
  | Some l => (l, Some l)
  | None => (defaultLogger, Some defaultLogger)
  end.

(** index.js: line 8 reads the accessor once, on import, into its constant
    [logger]; [init] calls [setupLogger] later (line 186).  The logger that
    index.js holds, and the module after [setupLogger]. *)
Definition indexStartup (cfg : Logging) (h : Host) : WinstonLogger * Setup :=
  let '(held, module) := logger None in
  (held, setupLogger cfg h module).

Definition isFile (t : Transport) : bool :=
  match t with
  | File _ _ _ _ => true
  | Console _ => false
  end.

(** A host where the log directory is missing and cannot be created. *)
Definition readOnly : Host :=
  {| existsSync := λ _, false;
     mkdirSync := λ _, Some {| text := "Error: EROFS: read-only file system, mkdir";
                               message := "EROFS: read-only file system, mkdir";
                               stack := "Error: EROFS at Object.mkdirSync" |};
     winston := None |}.

(** A host where the log directory is there. *)
Definition writable : Host :=
  {| existsSync := λ _, true; mkdirSync := λ _, None; winston := None |}.

Definition toFiles : Logging :=
  {| filePath := "logs"; console := true; file := true; cfg_level := None |}.

End Logger.

(** ** Sequences of process events *)

Module Events.
Import Lifecycle.

Definition signalled (l : list (Z * Signal)) : list (Z * Event) :=
  map (λ x, (fst x, Signalled (snd x))) l.

Definition rejected (l : list (Z * Thrown)) : list (Z * Event) :=
  map (λ x, (fst x, UnhandledRejection (snd x))) l.

Definition isSignalled (x : Z * Event) : bool :=
  match snd x with
  | Signalled _ => true
  | _ => false
  end.

Definition isUncaught (x : Z * Event) : bool :=
  match snd x with
  | UncaughtException _ => true
  | _ => false
  end.

Definition hasCallback (cb : Callback) (tm : PTimer) : bool :=
  match cb, p_callback tm with
  | ShutdownComplete, ShutdownComplete => true
  | CrashExit, CrashExit => true
  | _, _ => false
  end.

End Events.

(** * Properties of the router *)

Module RouterFacts.
Import Router.

(** ** The registry under the listener *)

Lemma entry_ensureCollection name cds n u :
  ensureCollection name cds !! n ≫= (λ ts : gmap string Z, ts !! u)
  = cds !! n ≫= (λ ts : gmap string Z, ts !! u).
Proof.
  unfold ensureCollection.
  destruct (cds !! name) eqn:E; [done|].
  destruct (decide (name = n)) as [->|Hne].
  - rewrite lookup_insert_eq, E. done.
  - by rewrite lookup_insert_ne.
Qed.

Lemma ensureCollection_present name cds ts :
  cds !! name = Some ts → ensureCollection name cds = cds.
Proof. intros E. unfold ensureCollection. by rewrite E. Qed.

Lemma timestamps_lookup name cds u :
  default ∅ (ensureCollection name cds !! name) !! u
  = cds !! name ≫= (λ ts : gmap string Z, ts !! u).
Proof.
  unfold ensureCollection.
  destruct (cds !! name) eqn:E.
  - rewrite E. done.
  - rewrite lookup_insert_eq. simpl. apply lookup_empty.
Qed.

(** The check of lines 120-130 reads nothing but the entry of the pair. *)
Lemma throttle_entry st name uid now amount :
  throttle (default ∅ (ensureCollection name (cooldowns st) !! name)) uid now amount
  = match entry st name uid with
    | Some t => if now <? t + amount then Some (t + amount - now) else None
    | None => None
    end.
Proof. unfold throttle, entry. by rewrite timestamps_lookup. Qed.

(** The state that lines 132-133 leave. *)
Lemma entry_recorded_same name uid now cds :
  <[name := <[uid := now]> (default ∅ (ensureCollection name cds !! name))]>
    (ensureCollection name cds) !! name ≫= (λ ts : gmap string Z, ts !! uid)
  = Some now.
Proof. rewrite lookup_insert_eq. simpl. apply lookup_insert_eq. Qed.

Lemma entry_recorded_other name uid now cds n u :
  ¬ (n = name ∧ u = uid) →
  <[name := <[uid := now]> (default ∅ (ensureCollection name cds !! name))]>
    (ensureCollection name cds) !! n ≫= (λ ts : gmap string Z, ts !! u)
  = cds !! n ≫= (λ ts : gmap string Z, ts !! u).
Proof.
  intros Hne.
  destruct (decide (name = n)) as [<-|Hn].
  - rewrite lookup_insert_eq. simpl.
    rewrite lookup_insert_ne by (intros ->; apply Hne; done).
    apply timestamps_lookup.
  - rewrite lookup_insert_ne by done. apply entry_ensureCollection.
Qed.

Lemma entry_runTimer_other tm cds n u :
  ¬ (t_name tm = n ∧ t_user tm = u) →
  runTimer tm cds !! n ≫= (λ ts : gmap string Z, ts !! u)
  = cds !! n ≫= (λ ts : gmap string Z, ts !! u).
Proof.
  intros Hne. unfold runTimer.
  destruct (cds !! t_name tm) as [ts|] eqn:E; [|done].
  destruct (decide (t_name tm = n)) as [Hn|Hn].
  - subst n. rewrite lookup_insert_eq, E. simpl.
    apply lookup_delete_ne. intros Hu. apply Hne. done.
  - by rewrite lookup_insert_ne.
Qed.

Lemma entry_runTimer_same tm cds :
  runTimer tm cds !! t_name tm ≫= (λ ts : gmap string Z, ts !! t_user tm) = None.
Proof.
  unfold runTimer.
  destruct (cds !! t_name tm) as [ts|] eqn:E.
  - rewrite lookup_insert_eq. simpl. apply lookup_delete_eq.
  - by rewrite E.
Qed.

(** ** The listener on a known command *)

Section KnownCommand.

Variable W : World.
Variable st : State.
Variable now : Z.
Variable i : Interaction.
Variable commandName : string.
Variable command : Command.
Hypothesis Hkind : kind i = ChatInputCommand commandName.
Hypothesis Hcommand : commands W !! commandName = Some command.

Let name := data_name command.
Let uid := id (user i).
Let amount := cooldownAmount command.

Lemma dispatch_throttled t :
  entry st name uid = Some t →
  now < t + amount →
  onInteractionCreate W st now i =
    {| state := st;
       effects := [InteractionReply (waitNotice command (t + amount - now))];
       outcome := match reply W i (waitNotice command (t + amount - now)) with
                  | Some e => Rejected e
                  | None => Resolved
                  end |}.
Proof.
  intros Hentry Hlt.
  unfold onInteractionCreate. rewrite Hkind, Hcommand. cbv zeta.
  rewrite throttle_entry. fold name uid amount. rewrite Hentry.
  destruct (Z.ltb_spec now (t + amount)) as [_|Hge]; [|lia].
  unfold waitNotice. fold name. f_equal.
  unfold entry in Hentry.
  destruct (cooldowns st !! name) as [ts|] eqn:E; [|discriminate].
  rewrite (ensureCollection_present _ _ _ E). by destruct st.
Qed.

Lemma dispatch_allowed :
  (entry st name uid = None ∨ ∃ t, entry st name uid = Some t ∧ t + amount ≤ now) →
  onInteractionCreate W st now i =
    {| state :=
         {| cooldowns :=
              <[name := <[uid := now]>
                 (default ∅ (ensureCollection name (cooldowns st) !! name))]>
                (ensureCollection name (cooldowns st));
            timers := timers st ++ [deletionTimer name uid now amount] |};
       effects :=
         CommandExecute name ::
         match fault (execute command i) with
         | None => [LoggerLog info ("Command executed: " +:+ commandName
                                    +:+ " by " +:+ tag (user i))]
         | Some e => catchBlock W i (execute command i) e
         end;
       outcome := Resolved |}.
Proof.
  intros Hentry.
  unfold onInteractionCreate. rewrite Hkind, Hcommand. cbv zeta.
  rewrite throttle_entry. fold name uid amount.
  assert (match entry st name uid with
          | Some t => if now <? t + amount then Some (t + amount - now) else None
          | None => None
          end = None) as ->.
  { destruct Hentry as [->|(t & -> & Hle)]; [done|].
    destruct (Z.ltb_spec now (t + amount)); [lia|done]. }
  unfold deletionTimer. by destruct (fault (execute command i)).
Qed.

(** Either the one or the other. *)
Lemma entry_cases :
  (entry st name uid = None ∨ ∃ t, entry st name uid = Some t ∧ t + amount ≤ now)
  ∨ (∃ t, entry st name uid = Some t ∧ now < t + amount).
Proof.
  destruct (entry st name uid) as [t|]; [|by left; left].
  destruct (Z.lt_ge_cases now (t + amount)); [right|left; right]; eauto.
Qed.

Lemma dispatch_allowed_is_allowed :
  (entry st name uid = None ∨ ∃ t, entry st name uid = Some t ∧ t + amount ≤ now) →
  allowed command i now st (onInteractionCreate W st now i).
Proof.
  intros H. rewrite (dispatch_allowed H). unfold allowed. simpl.
  split; [|split].
  - apply entry_recorded_same.
  - done.
  - eauto.
Qed.

Lemma dispatch_throttled_is_throttled t :
  entry st name uid = Some t →
  now < t + amount →
  throttled command (t + amount - now) st (onInteractionCreate W st now i).
Proof.
  intros H1 H2. rewrite (dispatch_throttled _ H1 H2). by split.
Qed.

End KnownCommand.

(** ** Frame: what a dispatch and a timer leave alone *)

Lemma dispatch_state_cases W st now i :
  state (onInteractionCreate W st now i) = st ∨
  ∃ commandName command,
    kind i = ChatInputCommand commandName ∧
    commands W !! commandName = Some command ∧
    (entry st (data_name command) (id (user i)) = None ∨
     ∃ t, entry st (data_name command) (id (user i)) = Some t ∧
          expiry command t ≤ now) ∧
    allowed command i now st (onInteractionCreate W st now i) ∧
    ∀ n u, ¬ (n = data_name command ∧ u = id (user i)) →
      entry (state (onInteractionCreate W st now i)) n u = entry st n u.
Proof.
  destruct (kind i) as [commandName| customId |] eqn:Hkind.
  - destruct (commands W !! commandName) as [command|] eqn:Hcommand.
    + destruct (entry_cases st now i command) as [Hfree|(t & Ht & Hlt)].
      * right. exists commandName, command.
        split; [done|]. split; [done|]. split; [done|]. split.
        -- by apply (dispatch_allowed_is_allowed W st now i commandName).
        -- intros n u Hne.
           rewrite (dispatch_allowed W st now i commandName command) by done.
           unfold entry. simpl. by apply entry_recorded_other.
      * left. by rewrite (dispatch_throttled W st now i commandName command Hkind Hcommand t).
    + left. unfold onInteractionCreate. by rewrite Hkind, Hcommand.
  - left. unfold onInteractionCreate. rewrite Hkind.
    destruct (String.prefix _ _); [|done].
    by destruct (fault _).
  - left. unfold onInteractionCreate. by rewrite Hkind.
Qed.

Lemma dispatch_frame W st now i n u :
  (∀ commandName command,
     kind i = ChatInputCommand commandName →
     commands W !! commandName = Some command →
     ¬ (n = data_name command ∧ u = id (user i))) →
  entry (state (onInteractionCreate W st now i)) n u = entry st n u.
Proof.
  intros Hother.
  destruct (dispatch_state_cases W st now i)
    as [->|(commandName & command & Hkind & Hcommand & _ & _ & Hframe)]; [done|].
  apply Hframe. by apply (Hother commandName).
Qed.

(** What the listener does and how its promise settles depend on the
    registry through the entry of its own (command, caller) pair alone. *)
Lemma dispatch_reads_own_entry W st1 st2 now i :
  (∀ commandName command,
     kind i = ChatInputCommand commandName →
     commands W !! commandName = Some command →
     entry st1 (data_name command) (id (user i))
     = entry st2 (data_name command) (id (user i))) →
  effects (onInteractionCreate W st1 now i) = effects (onInteractionCreate W st2 now i) ∧
  outcome (onInteractionCreate W st1 now i) = outcome (onInteractionCreate W st2 now i).
Proof.
  intros Hsame. unfold onInteractionCreate.
  destruct (kind i) as [commandName| customId |] eqn:Hkind.
  - destruct (commands W !! commandName) as [command|] eqn:Hcommand; [|done].
    cbv zeta. rewrite !throttle_entry, (Hsame commandName command) by done.
    destruct (entry st2 _ _) as [t|].
    + destruct (now <? _); [done|]. by destruct (fault _).
    + by destruct (fault _).
  - destruct (String.prefix _ _); [|done]. by destruct (fault _).
  - done.
Qed.

Lemma fireTimer_frame k st tm n u :
  timers st !! k = Some tm →
  ¬ (t_name tm = n ∧ t_user tm = u) →
  entry (fireTimer k st) n u = entry st n u.
Proof.
  intros Hk Hne. unfold fireTimer. rewrite Hk. unfold entry. simpl.
  by apply entry_runTimer_other.
Qed.

Lemma fireTimer_timers k st tm :
  timers st !! k = Some tm →
  timers (fireTimer k st) = delete k (timers st).
Proof. intros Hk. unfold fireTimer. by rewrite Hk. Qed.

(** ** The cooldown window over turns of the event loop

    Between an invocation recorded at [t0] and [t0 + amount] nothing removes
    or rewrites its entry, whatever else is dispatched and whichever timers
    run, provided no older timer for the pair was pending and the delay is
    one that [setTimeout] keeps. *)

Section Window.

Variable W : World.
Variables name uid : string.
Variables t0 amount : Z.
Hypothesis Hamount :
  ∀ commandName command,
    commands W !! commandName = Some command →
    data_name command = name → cooldownAmount command = amount.
Hypothesis Hrange : 1 ≤ amount ≤ 2147483647.

Lemma clampDelay_in_range : clampDelay amount = amount.
Proof.
  unfold clampDelay.
  destruct (Z.ltb_spec amount 1); [lia|].
  destruct (Z.ltb_spec 2147483647 amount); [lia|done].
Qed.

Lemma run_le t st t' st' : run W t st t' st' → t ≤ t'.
Proof. induction 1; lia. Qed.

Lemma step_windowHeld t1 st st1 :
  step W t1 st st1 →
  t1 < t0 + amount →
  windowHeld name uid t0 amount st →
  windowHeld name uid t0 amount st1.
Proof.
  intros Hstep Hlt [Hentry Htimers].
  destruct Hstep as [st i|st k tm Hk Hdue].
  - destruct (dispatch_state_cases W st t1 i)
      as [->|(commandName & command & Hkind & Hcommand & Hfree & Hallowed & Hframe)];
      [by split|].
    assert (¬ (name = data_name command ∧ uid = id (user i))) as Hother.
    { intros [Hn Hu]. subst name uid.
      pose proof (Hamount _ _ Hcommand eq_refl) as Ha. unfold expiry in Hfree.
      destruct Hfree as [Hnone|(t & Ht & Hle)]; [congruence|].
      assert (t = t0) by congruence. lia. }
    split.
    + by rewrite Hframe.
    + destruct Hallowed as (_ & -> & _).
      intros tm Hin Hn Hu.
      apply elem_of_app in Hin as [Hin|Hin]; [by apply Htimers|].
      apply list_elem_of_singleton in Hin. subst tm. simpl in *.
      exfalso. apply Hother. done.
  - assert (¬ (t_name tm = name ∧ t_user tm = uid)) as Hother.
    { intros [Hn Hu].
      assert (tm ∈ timers st) as Hin by (apply list_elem_of_lookup; eauto).
      specialize (Htimers tm Hin Hn Hu). lia. }
    split.
    + by rewrite (fireTimer_frame k st tm).
    + rewrite (fireTimer_timers k st tm) by done.
      intros tm' Hin. apply Htimers.
      by apply list_elem_of_delete_inv in Hin.
Qed.

Lemma run_windowHeld t st t' st' :
  run W t st t' st' →
  t' < t0 + amount →
  windowHeld name uid t0 amount st →
  windowHeld name uid t0 amount st'.
Proof.
  induction 1 as [|t t1 t' st st1 st' Hle Hstep Hrun IH]; [done|].
  intros Hlt Hheld. apply IH; [done|].
  apply (step_windowHeld t1 st); [done| |done].
  apply run_le in Hrun. lia.
Qed.

End Window.

(** An invocation recorded in a state without older timers for the pair
    opens the window. *)
Lemma dispatch_opens_window W st now i commandName command :
  kind i = ChatInputCommand commandName →
  commands W !! commandName = Some command →
  1 ≤ cooldownAmount command ≤ 2147483647 →
  noTimerFor (data_name command) (id (user i)) st →
  allowed command i now st (onInteractionCreate W st now i) →
  windowHeld (data_name command) (id (user i)) now (cooldownAmount command)
    (state (onInteractionCreate W st now i)).
Proof.
  intros Hkind Hcommand Hrange Hfresh (Hentry & Htimers & _).
  split; [done|]. rewrite Htimers.
  intros tm Hin Hn Hu.
  apply elem_of_app in Hin as [Hin|Hin].
  - exfalso. by apply (Hfresh tm).
  - apply list_elem_of_singleton in Hin. subst tm.
    unfold due, deletionTimer. simpl.
    rewrite (clampDelay_in_range _ Hrange). lia.
Qed.

(** Throttling through the window: after any turns of the event loop that
    end before the expiry, the same caller is throttled for the command. *)
Lemma throttled_over_turns W st now i commandName command st2 now2 i2 :
  registeredByName W →
  kind i = ChatInputCommand commandName →
  commands W !! commandName = Some command →
  1 ≤ cooldownAmount command ≤ 2147483647 →
  noTimerFor (data_name command) (id (user i)) st →
  allowed command i now st (onInteractionCreate W st now i) →
  run W now (state (onInteractionCreate W st now i)) now2 st2 →
  now2 < expiry command now →
  kind i2 = ChatInputCommand commandName →
  id (user i2) = id (user i) →
  throttled command (expiry command now - now2) st2
    (onInteractionCreate W st2 now2 i2).
Proof.
  intros Hreg Hkind Hcommand Hrange Hfresh Hallowed Hrun Hlt Hkind2 Huser2.
  pose proof (dispatch_opens_window W st now i commandName command
                Hkind Hcommand Hrange Hfresh Hallowed) as Hheld.
  assert (windowHeld (data_name command) (id (user i)) now
            (cooldownAmount command) st2) as [Hentry _].
  { apply (run_windowHeld W _ _ now (cooldownAmount command)) with (4 := Hheld) (2 := Hrun);
      [|done].
    intros commandName' command' Hc' Hn'.
    pose proof (Hreg _ _ Hc') as E1. pose proof (Hreg _ _ Hcommand) as E2.
    assert (commandName' = commandName) by congruence. subst commandName'.
    congruence. }
  apply (dispatch_throttled_is_throttled W st2 now2 i2 commandName command);
    try done.
  by rewrite Huser2.
Qed.

(** ** The cooldown check *)

(** C1.  On a known command [C] invoked by caller [U] at time [now]: the
    cooldown is [C]'s own, 3 seconds when it has none; with no entry for
    (C, U), or with a stored expiry at or before [now], the listener records
    [now] (an expiry of [now] plus the cooldown) and goes on to execute the
    command; with a stored expiry strictly after [now] it only replies with
    the remaining time, expiry minus [now], and leaves the registry as it
    was.  Hence a second invocation before the cooldown has passed is
    throttled with a remaining time in (0, N], and one at or after it is
    let through. *)
Theorem cooldown_check_and_record W st now i commandName command :
  kind i = ChatInputCommand commandName →
  commands W !! commandName = Some command →
  let name := data_name command in
  let uid := id (user i) in
  let N := cooldownSeconds command in
  let r := onInteractionCreate W st now i in
  (cooldown command = None → N = 3) ∧
  (∀ n, cooldown command = Some n → n ≠ 0 → N = n) ∧
  (∀ t, expiry command t = t + N * 1000) ∧
  ((entry st name uid = None ∨
    ∃ t, entry st name uid = Some t ∧ expiry command t ≤ now) →
   allowed command i now st r) ∧
  (∀ t, entry st name uid = Some t → now < expiry command t →
   throttled command (expiry command t - now) st r) ∧
  (∀ now2 i2,
     allowed command i now st r →
     kind i2 = ChatInputCommand commandName →
     id (user i2) = uid →
     let r2 := onInteractionCreate W (state r) now2 i2 in
     (now ≤ now2 < now + N * 1000 →
      throttled command (now + N * 1000 - now2) (state r) r2 ∧
      0 < now + N * 1000 - now2 ≤ N * 1000) ∧
     (now + N * 1000 ≤ now2 → allowed command i2 now2 (state r) r2)).
Proof.
  intros Hkind Hcommand name uid N r.
  split; [|split; [|split; [|split; [|split]]]].
  - intros Hnone. subst N. unfold cooldownSeconds. by rewrite Hnone.
  - intros n Hsome Hn. subst N. unfold cooldownSeconds. rewrite Hsome.
    by destruct (Z.eqb_spec n 0).
  - done.
  - intros Hfree.
    by apply (dispatch_allowed_is_allowed W st now i commandName).
  - intros t Hentry Hlt.
    by apply (dispatch_throttled_is_throttled W st now i commandName).
  - intros now2 i2 (Hentry & _ & _) Hkind2 Huser2 r2.
    fold r in Hentry. fold name uid in Hentry. rewrite <- Huser2 in Hentry.
    split.
    + intros [Hle Hlt]. split; [|lia].
      apply (dispatch_throttled_is_throttled W (state r) now2 i2 commandName
               command Hkind2 Hcommand now Hentry).
      unfold cooldownAmount. fold N. lia.
    + intros Hle.
      apply (dispatch_allowed_is_allowed W (state r) now2 i2 commandName
               command Hkind2 Hcommand).
      right. exists now. split; [done|]. unfold cooldownAmount. fold N. lia.
Qed.

Lemma cooldown_check_and_record_witness :
  allowed Scenario.ping (Scenario.slash "ping" Scenario.U1) 0 initialState
    (onInteractionCreate Scenario.online initialState 0
       (Scenario.slash "ping" Scenario.U1)).
Proof.
  apply (cooldown_check_and_record Scenario.online initialState 0
           (Scenario.slash "ping" Scenario.U1) "ping" Scenario.ping
           eq_refl eq_refl).
  left. reflexivity.
Defined.

(** C2.  When the check throttles, the listener's only effect is the
    ephemeral notice of the remaining time: [execute] is not called, nothing
    is recorded, and nothing follows the reply. *)
Theorem throttled_never_executes W st now i commandName command t :
  kind i = ChatInputCommand commandName →
  commands W !! commandName = Some command →
  entry st (data_name command) (id (user i)) = Some t →
  now < expiry command t →
  let r := onInteractionCreate W st now i in
  effects r = [InteractionReply (waitNotice command (expiry command t - now))] ∧
  ephemeral (waitNotice command (expiry command t - now)) = true ∧
  count isExecute (effects r) = 0%nat ∧
  (∀ name, CommandExecute name ∉ effects r) ∧
  state r = st.
Proof.
  intros Hkind Hcommand Hentry Hlt r. subst r.
  rewrite (dispatch_throttled W st now i commandName command Hkind Hcommand t Hentry Hlt).
  simpl. repeat split; try done.
  intros name Hin. apply list_elem_of_singleton in Hin. discriminate.
Qed.

Lemma throttled_never_executes_witness :
  count isExecute
    (effects (onInteractionCreate Scenario.online
                (Scenario.after Scenario.online initialState 0
                   (Scenario.slash "ping" Scenario.U1))
                1000 (Scenario.slash "ping" Scenario.U1))) = 0%nat.
Proof.
  apply (throttled_never_executes Scenario.online
           (Scenario.after Scenario.online initialState 0
              (Scenario.slash "ping" Scenario.U1))
           1000 (Scenario.slash "ping" Scenario.U1) "ping" Scenario.ping 0
           eq_refl eq_refl eq_refl eq_refl).
Defined.

Lemma throttled_inv W st now i commandName command remainingMs :
  kind i = ChatInputCommand commandName →
  commands W !! commandName = Some command →
  throttled command remainingMs st (onInteractionCreate W st now i) →
  ∃ t, entry st (data_name command) (id (user i)) = Some t ∧
       now < expiry command t ∧ remainingMs = expiry command t - now.
Proof.
  intros Hkind Hcommand [_ Heffects].
  destruct (entry_cases st now i command) as [Hfree|(t & Ht & Hlt)].
  - rewrite (dispatch_allowed W st now i commandName command Hkind Hcommand Hfree)
      in Heffects.
    discriminate.
  - exists t. split; [done|]. split; [done|].
    rewrite (dispatch_throttled W st now i commandName command Hkind Hcommand t Ht Hlt)
      in Heffects.
    simpl in Heffects. unfold waitNotice in Heffects. unfold expiry. congruence.
Qed.

(** C6.  An invocation of command [C] by caller [U1] changes the entry of
    (C, U1) and no other: every other (command, caller) pair has the entry
    it had, the timer it sets deletes only the entry of (C, U1), and a later
    invocation by another caller, or of another command, is handled exactly
    as it would have been without it; in particular it is throttled only if
    it would have been throttled anyway. *)
Theorem cooldown_scoped_per_pair W st now i commandName command :
  kind i = ChatInputCommand commandName →
  commands W !! commandName = Some command →
  let r := onInteractionCreate W st now i in
  (∀ n u, ¬ (n = data_name command ∧ u = id (user i)) →
     entry (state r) n u = entry st n u) ∧
  (∀ tm, tm ∈ timers (state r) →
     tm ∈ timers st ∨ (t_name tm = data_name command ∧ t_user tm = id (user i))) ∧
  (∀ st' k tm n u,
     timers st' !! k = Some tm →
     t_name tm = data_name command → t_user tm = id (user i) →
     ¬ (n = data_name command ∧ u = id (user i)) →
     entry (fireTimer k st') n u = entry st' n u) ∧
  (∀ now2 i2 commandName2 command2,
     kind i2 = ChatInputCommand commandName2 →
     commands W !! commandName2 = Some command2 →
     ¬ (data_name command2 = data_name command ∧ id (user i2) = id (user i)) →
     let r2 := onInteractionCreate W (state r) now2 i2 in
     let r2' := onInteractionCreate W st now2 i2 in
     effects r2 = effects r2' ∧
     outcome r2 = outcome r2' ∧
     ∀ remainingMs,
       throttled command2 remainingMs (state r) r2 →
       throttled command2 remainingMs st r2').
Proof.
  intros Hkind Hcommand r.
  assert (∀ n u, ¬ (n = data_name command ∧ u = id (user i)) →
            entry (state r) n u = entry st n u) as Hframe.
  { intros n u Hne. apply dispatch_frame.
    intros commandName' command' Hkind' Hcommand'.
    assert (commandName' = commandName) by congruence. subst commandName'.
    assert (command' = command) by congruence. by subst command'. }
  split; [done|]. split; [|split].
  - intros tm Hin. subst r.
    destruct (dispatch_state_cases W st now i)
      as [E|(commandName' & command' & Hkind' & Hcommand' & _ & (_ & E & _) & _)].
    + left. by rewrite E in Hin.
    + assert (commandName' = commandName) by congruence. subst commandName'.
      assert (command' = command) by congruence. subst command'.
      rewrite E in Hin. apply elem_of_app in Hin as [Hin|Hin]; [by left|].
      apply list_elem_of_singleton in Hin. subst tm. by right.
  - intros st' k tm n u Hk Hn Hu Hne.
    apply (fireTimer_frame k st' tm); [done|].
    intros [E1 E2]. apply Hne. split; congruence.
  - intros now2 i2 commandName2 command2 Hkind2 Hcommand2 Hne r2 r2'.
    assert (entry (state r) (data_name command2) (id (user i2))
            = entry st (data_name command2) (id (user i2))) as Hsame
      by (by apply Hframe).
    destruct (dispatch_reads_own_entry W (state r) st now2 i2) as [Heff Hout].
    { intros commandName' command' Hkind' Hcommand'.
      assert (commandName' = commandName2) by congruence. subst commandName'.
      assert (command' = command2) by congruence. by subst command'. }
    split; [done|]. split; [done|].
    intros remainingMs Hthr.
    destruct (throttled_inv W (state r) now2 i2 commandName2 command2 remainingMs
                Hkind2 Hcommand2 Hthr) as (t & Ht & Hlt & ->).
    rewrite Hsame in Ht.
    by apply (dispatch_throttled_is_throttled W st now2 i2 commandName2 command2).
Qed.

Lemma cooldown_scoped_per_pair_witness :
  entry (Scenario.after Scenario.online initialState 0
           (Scenario.slash "ping" Scenario.U1)) "ping" "1002"
  = entry initialState "ping" "1002".
Proof.
  apply (cooldown_scoped_per_pair Scenario.online initialState 0
           (Scenario.slash "ping" Scenario.U1) "ping" Scenario.ping
           eq_refl eq_refl).
  intros [_ E]. discriminate E.
Defined.

(** ** The catch block *)

(** Nothing but the unawaited throttle reply makes the listener's promise
    reject. *)
Lemma rejection_only_from_throttle_reply W st now i e :
  outcome (onInteractionCreate W st now i) = Rejected e →
  ∃ commandName command t,
    kind i = ChatInputCommand commandName ∧
    commands W !! commandName = Some command ∧
    entry st (data_name command) (id (user i)) = Some t ∧
    now < expiry command t ∧
    reply W i (waitNotice command (expiry command t - now)) = Some e.
Proof.
  destruct (kind i) as [commandName| customId |] eqn:Hkind.
  - destruct (commands W !! commandName) as [command|] eqn:Hcommand.
    + destruct (entry_cases st now i command) as [Hfree|(t & Ht & Hlt)].
      * by rewrite (dispatch_allowed W st now i commandName command Hkind Hcommand Hfree).
      * rewrite (dispatch_throttled W st now i commandName command Hkind Hcommand t Ht Hlt).
        simpl. intros Hout. exists commandName, command, t.
        repeat split; try done. unfold expiry.
        destruct (reply W i _); [congruence|discriminate].
    + unfold onInteractionCreate. by rewrite Hkind, Hcommand.
  - unfold onInteractionCreate. rewrite Hkind.
    destruct (String.prefix _ _); [|done]. by destruct (fault _).
  - unfold onInteractionCreate. by rewrite Hkind.
Qed.

Lemma count_catchBlock W i s e :
  count isNotification (catchBlock W i s e) = 1%nat ∧
  count isExit (catchBlock W i s e) = 0%nat.
Proof.
  unfold catchBlock.
  destruct (replied s || deferred s).
  - by destruct (followUp W i replyContent).
  - by destruct (reply W i replyContent).
Qed.

(** C3.  When [execute] faults, the listener logs the fault and sends one
    ephemeral error notice: a reply when the interaction has been neither
    replied to nor deferred, a follow-up otherwise.  It sends no other
    notice, does not exit the process, and its promise resolves whether or
    not the notice could be delivered; a delivery failure is logged. *)
Theorem command_fault_one_notification W st now i commandName command e :
  kind i = ChatInputCommand commandName →
  commands W !! commandName = Some command →
  (entry st (data_name command) (id (user i)) = None ∨
   ∃ t, entry st (data_name command) (id (user i)) = Some t ∧
        expiry command t ≤ now) →
  fault (execute command i) = Some e →
  let s := execute command i in
  let r := onInteractionCreate W st now i in
  count isNotification (effects r) = 1%nat ∧
  ephemeral replyContent = true ∧
  (replied s || deferred s = false → InteractionReply replyContent ∈ effects r) ∧
  (replied s || deferred s = true → InteractionFollowUp replyContent ∈ effects r) ∧
  count isExit (effects r) = 0%nat ∧
  outcome r = Resolved ∧
  (∀ err, replied s || deferred s = false → reply W i replyContent = Some err →
     last (effects r)
     = Some (LoggerLog error ("Could not send error reply: " +:+ text err))) ∧
  (∀ err, replied s || deferred s = true → followUp W i replyContent = Some err →
     last (effects r)
     = Some (LoggerLog error ("Could not send error followup: " +:+ text err))).
Proof.
  intros Hkind Hcommand Hfree Hfault s r. subst r.
  rewrite (dispatch_allowed W st now i commandName command Hkind Hcommand Hfree).
  rewrite Hfault. cbn [effects outcome]. fold s.
  destruct (count_catchBlock W i s e) as [Hone Hexit].
  split; [exact Hone|]. split; [done|].
  unfold catchBlock.
  split; [|split; [|split; [|split; [|split]]]].
  - intros ->. do 2 apply list_elem_of_further. apply list_elem_of_here.
  - intros ->. do 2 apply list_elem_of_further. apply list_elem_of_here.
  - exact Hexit.
  - done.
  - intros err -> ->. done.
  - intros err -> ->. done.
Qed.

Lemma command_fault_one_notification_witness :
  count isNotification
    (effects (onInteractionCreate Scenario.lapsed initialState 0
                (Scenario.slash "flaky" Scenario.U1))) = 1%nat.
Proof.
  apply (command_fault_one_notification Scenario.lapsed initialState 0
           (Scenario.slash "flaky" Scenario.U1) "flaky" Scenario.flaky
           Scenario.boom eq_refl eq_refl (or_introl eq_refl) eq_refl).
Defined.

(** C10.  When [execute] faults after the check let the invocation through
    at time [now], the entry recorded at [now] stays and so does its timer:
    the catch block rolls nothing back.  The caller is throttled for the
    command at its next invocation before [now] plus the cooldown, and, when
    no older timer for the pair was pending and the delay is one that
    [setTimeout] keeps, after any turns of the event loop before then. *)
Theorem faulted_command_keeps_cooldown W st now i commandName command e :
  kind i = ChatInputCommand commandName →
  commands W !! commandName = Some command →
  (entry st (data_name command) (id (user i)) = None ∨
   ∃ t, entry st (data_name command) (id (user i)) = Some t ∧
        expiry command t ≤ now) →
  fault (execute command i) = Some e →
  let r := onInteractionCreate W st now i in
  entry (state r) (data_name command) (id (user i)) = Some now ∧
  timers (state r) =
    timers st ++ [deletionTimer (data_name command) (id (user i)) now
                    (cooldownAmount command)] ∧
  (∀ now2 i2,
     kind i2 = ChatInputCommand commandName →
     id (user i2) = id (user i) →
     now2 < expiry command now →
     throttled command (expiry command now - now2) (state r)
       (onInteractionCreate W (state r) now2 i2)) ∧
  (∀ st2 now2 i2,
     registeredByName W →
     1 ≤ cooldownAmount command ≤ 2147483647 →
     noTimerFor (data_name command) (id (user i)) st →
     run W now (state r) now2 st2 →
     now2 < expiry command now →
     kind i2 = ChatInputCommand commandName →
     id (user i2) = id (user i) →
     throttled command (expiry command now - now2) st2
       (onInteractionCreate W st2 now2 i2)).
Proof.
  intros Hkind Hcommand Hfree Hfault r.
  pose proof (dispatch_allowed_is_allowed W st now i commandName command
                Hkind Hcommand Hfree) as Hallowed.
  fold r in Hallowed.
  destruct Hallowed as (Hentry & Htimers & Hrest).
  split; [done|]. split; [done|]. split.
  - intros now2 i2 Hkind2 Huser2 Hlt.
    apply (dispatch_throttled_is_throttled W (state r) now2 i2 commandName
             command Hkind2 Hcommand now); [|done].
    by rewrite Huser2.
  - intros st2 now2 i2 Hreg Hrange Hfresh Hrun Hlt Hkind2 Huser2.
    by apply (throttled_over_turns W st now i commandName command st2 now2 i2).
Qed.

Lemma faulted_command_keeps_cooldown_witness :
  throttled Scenario.flaky 4000
    (Scenario.after Scenario.online initialState 0
       (Scenario.slash "flaky" Scenario.U1))
    (onInteractionCreate Scenario.online
       (Scenario.after Scenario.online initialState 0
          (Scenario.slash "flaky" Scenario.U1))
       1000 (Scenario.slash "flaky" Scenario.U1)).
Proof.
  destruct (faulted_command_keeps_cooldown Scenario.online initialState 0
              (Scenario.slash "flaky" Scenario.U1) "flaky" Scenario.flaky
              Scenario.boom eq_refl eq_refl (or_introl eq_refl) eq_refl)
    as (_ & _ & Hnext & _).
  apply (Hnext 1000 (Scenario.slash "flaky" Scenario.U1)); reflexivity.
Defined.

(** ** The boundary *)

(** A fault of the ticket delegate is handled by the catch block, and the
    listener's promise resolves. *)
Lemma delegate_fault_contained W st now i customId :
  kind i = Button customId →
  outcome (onInteractionCreate W st now i) = Resolved ∧
  (∀ e, String.prefix "ticket_" customId = true →
        fault (handleTicketButton W i) = Some e →
        effects (onInteractionCreate W st now i)
        = HandleTicketButton customId :: catchBlock W i (handleTicketButton W i) e).
Proof.
  intros Hkind. unfold onInteractionCreate. rewrite Hkind. split.
  - destruct (String.prefix _ _); [|done]. by destruct (fault _).
  - intros e -> ->. done.
Qed.

(** C8, at a throttled invocation whose reply cannot be delivered: [ping] is
    invoked by the same caller at 0 and again at 1000 ms, and the
    interaction token of the second has lapsed.  The rejection of the
    returned reply promise is not caught by the try/catch: the listener's
    own promise rejects with it, and neither the log entry nor the error
    notice of the catch block is produced. *)
Theorem throttle_reply_rejection_escapes :
  let st1 := Scenario.after Scenario.lapsed initialState 0
               (Scenario.slash "ping" Scenario.U1) in
  let r := onInteractionCreate Scenario.lapsed st1 1000
             (Scenario.slash "ping" Scenario.U1) in
  effects r = [InteractionReply (waitNotice Scenario.ping 2000)] ∧
  outcome r = Rejected Scenario.expired.
Proof. split; reflexivity. Qed.

(** ** The scenario of the specification

    [ping], cooldown 3 s: U1 at 0 is let through; U1 at 1 s is throttled with
    2 s to go; U2 at 1 s is let through; U1 at 3.1 s is let through. *)
Example ping_scenario :
  let W := Scenario.online in
  let s1 := Scenario.after W initialState 0 (Scenario.slash "ping" Scenario.U1) in
  let r2 := onInteractionCreate W s1 1000 (Scenario.slash "ping" Scenario.U1) in
  let r3 := onInteractionCreate W (state r2) 1000 (Scenario.slash "ping" Scenario.U2) in
  let r4 := onInteractionCreate W (state r3) 3100 (Scenario.slash "ping" Scenario.U1) in
  entry s1 "ping" "1001" = Some 0 ∧
  effects r2 = [InteractionReply (waitNotice Scenario.ping 2000)] ∧
  head (effects r3) = Some (CommandExecute "ping") ∧
  head (effects r4) = Some (CommandExecute "ping") ∧
  entry (state r4) "ping" "1001" = Some 3100 ∧
  entry (state r4) "ping" "1002" = Some 1000.
Proof. repeat split; reflexivity. Qed.

(** A timer that runs late deletes the entry of a newer invocation: U1 is
    let through at 0 and again at 3000, the timer of the first invocation
    runs only then, and U1 is let through once more at 3500. *)
Example late_timer_deletes_fresh_entry :
  let W := Scenario.online in
  let i := Scenario.slash "ping" Scenario.U1 in
  let s1 := Scenario.after W initialState 0 i in
  let s2 := Scenario.after W s1 3000 i in
  let s3 := fireTimer 0 s2 in
  entry s2 "ping" "1001" = Some 3000 ∧
  entry s3 "ping" "1001" = None ∧
  head (effects (onInteractionCreate W s3 3500 i)) = Some (CommandExecute "ping").
Proof. repeat split; reflexivity. Qed.

(** C9.  A slash command whose name is not in the command registry: the
    listener logs one warning and returns; it sends nothing to the caller
    and leaves the cooldown registry and the timers as they were. *)
Theorem unknown_command_dropped W st now i commandName :
  kind i = ChatInputCommand commandName →
  commands W !! commandName = None →
  let r := onInteractionCreate W st now i in
  effects r = [LoggerLog warn ("Command not found: " +:+ commandName)] ∧
  count isNotification (effects r) = 0%nat ∧
  count isExecute (effects r) = 0%nat ∧
  state r = st ∧
  outcome r = Resolved.
Proof.
  intros Hkind Hnone r. subst r.
  unfold onInteractionCreate. rewrite Hkind, Hnone. done.
Qed.

Lemma unknown_command_dropped_witness :
  state (onInteractionCreate Scenario.online initialState 0
           (Scenario.slash "pong" Scenario.U1)) = initialState.
Proof.
  apply (unknown_command_dropped Scenario.online initialState 0
           (Scenario.slash "pong" Scenario.U1) "pong" eq_refl eq_refl).
Defined.

End RouterFacts.

(** * Properties of the lifecycle *)

Module LifecycleFacts.
Import Lifecycle.

(** ** Start-up validation *)

Lemma missingVars_cases env :
  missingVars env =
    (if falsy env "DISCORD_TOKEN" then ["DISCORD_TOKEN"] else []) ++
    (if falsy env "CLIENT_ID" then ["CLIENT_ID"] else []).
Proof.
  unfold missingVars, required. simpl.
  by destruct (falsy env "DISCORD_TOKEN"), (falsy env "CLIENT_ID").
Qed.

Lemma elem_of_missingVars env v :
  v ∈ missingVars env ↔ v ∈ required ∧ falsy env v = true.
Proof.
  unfold missingVars. rewrite list_elem_of_In, filter_In, <- list_elem_of_In. done.
Qed.

(** [!process.env[envVar]] in terms of the environment. *)
Lemma falsy_true env v :
  falsy env v = true ↔ env !! v = None ∨ env !! v = Some "".
Proof.
  unfold falsy. destruct (env !! v) as [[|a r]|]; split; try done.
  - by right.
  - intros [?|?]; discriminate.
  - by left.
Qed.

Lemma falsy_false env v :
  falsy env v = false ↔ ∃ s, env !! v = Some s ∧ s ≠ "".
Proof.
  unfold falsy. destruct (env !! v) as [[|a r]|]; split; try done.
  - intros (s & [= <-] & Hs). done.
  - intros _. by eexists.
  - intros (s & ? & _). discriminate.
Qed.

(** What [init] does, by which of the two checks of line 15 succeed. *)
Lemma init_by_flags env token login :
  trace (init env token login) =
    match falsy env "DISCORD_TOKEN", falsy env "CLIENT_ID" with
    | true, true =>
        [ConsoleError "Error: Missing required environment variables:";
         ConsoleError "- DISCORD_TOKEN";
         ConsoleError "- CLIENT_ID";
         ConsoleError "Please add them to your .env file and restart the bot.";
         ProcessExit 1]
    | true, false =>
        [ConsoleError "Error: Missing required environment variables:";
         ConsoleError "- DISCORD_TOKEN";
         ConsoleError "Please add them to your .env file and restart the bot.";
         ProcessExit 1]
    | false, true =>
        [ConsoleError "Error: Missing required environment variables:";
         ConsoleError "- CLIENT_ID";
         ConsoleError "Please add them to your .env file and restart the bot.";
         ProcessExit 1]
    | false, false =>
        [SetupLogger; LoggerLog info "Starting bot..."; ClientLogin token] ++
        match login with
        | None => []
        | Some e =>
            [ConsoleErrorWith "Failed to initialize bot:" e;
             LoggerLog error ("Initialization error: " +:+ message e);
             ProcessExit 1]
        end
    end ∧
  exitStatus (init env token login) =
    match falsy env "DISCORD_TOKEN", falsy env "CLIENT_ID", login with
    | false, false, None => None
    | _, _, _ => Some 1
    end.
Proof.
  unfold init, checkRequiredEnvVars. rewrite (missingVars_cases env).
  destruct (falsy env "DISCORD_TOKEN"), (falsy env "CLIENT_ID");
    destruct login; split; reflexivity.
Qed.

(** C5.  Whichever of the two required variables, [DISCORD_TOKEN] and
    [CLIENT_ID], are missing from the environment (not set, or set to the
    empty string), the names that start-up prints are exactly the missing
    ones, in one diagnostic (a heading, one line per missing name, a closing
    line); if any is missing the process exits with status 1 and
    [client.login] is never called; if none is, nothing is printed and
    start-up goes on to log in. *)
Theorem missing_environment_reported env token login :
  let m := init env token login in
  let missing (v : string) := env !! v = None ∨ env !! v = Some "" in
  let present (v : string) := ∃ s, env !! v = Some s ∧ s ≠ "" in
  (∀ v, v ∈ listedNames (trace m) ↔
        (v = "DISCORD_TOKEN" ∨ v = "CLIENT_ID") ∧
        (env !! v = None ∨ env !! v = Some "")) ∧
  (missing "DISCORD_TOKEN" → missing "CLIENT_ID" →
   trace m =
     [ConsoleError "Error: Missing required environment variables:";
      ConsoleError "- DISCORD_TOKEN";
      ConsoleError "- CLIENT_ID";
      ConsoleError "Please add them to your .env file and restart the bot.";
      ProcessExit 1]) ∧
  (missing "DISCORD_TOKEN" → present "CLIENT_ID" →
   trace m =
     [ConsoleError "Error: Missing required environment variables:";
      ConsoleError "- DISCORD_TOKEN";
      ConsoleError "Please add them to your .env file and restart the bot.";
      ProcessExit 1]) ∧
  (present "DISCORD_TOKEN" → missing "CLIENT_ID" →
   trace m =
     [ConsoleError "Error: Missing required environment variables:";
      ConsoleError "- CLIENT_ID";
      ConsoleError "Please add them to your .env file and restart the bot.";
      ProcessExit 1]) ∧
  (present "DISCORD_TOKEN" → present "CLIENT_ID" →
   listedNames (trace m) = [] ∧
   count isLogin (trace m) = 1%nat ∧
   take 3 (trace m)
   = [SetupLogger; LoggerLog info "Starting bot..."; ClientLogin token]) ∧
  (missing "DISCORD_TOKEN" ∨ missing "CLIENT_ID" →
   exitStatus m = Some 1 ∧
   last (trace m) = Some (ProcessExit 1) ∧
   count isLogin (trace m) = 0%nat).
Proof.
  intros m missing present. subst m missing present. cbv beta.
  destruct (init_by_flags env token login) as [Htrace Hstatus].
  pose proof (falsy_true env "DISCORD_TOKEN") as Htoken.
  pose proof (falsy_true env "CLIENT_ID") as Hclient.
  split; [|split; [|split; [|split; [|split]]]].
  - intros v. rewrite Htrace.
    destruct (falsy env "DISCORD_TOKEN") eqn:Ed, (falsy env "CLIENT_ID") eqn:Ec;
      try destruct login; cbn; rewrite ?elem_of_cons, ?elem_of_nil;
      rewrite <- (falsy_true env v); split.
    all: try (intros [-> | [-> | [] ] ]; split; auto; done).
    all: try (intros [-> | [] ]; split; auto; done).
    all: try (intros []; done).
    all: intros [ [-> | ->] Hv]; auto; congruence.
  - intros Hd%falsy_true Hc%falsy_true. by rewrite Htrace, Hd, Hc.
  - intros Hd%falsy_true Hc%falsy_false. by rewrite Htrace, Hd, Hc.
  - intros Hd%falsy_false Hc%falsy_true. by rewrite Htrace, Hd, Hc.
  - intros Hd%falsy_false Hc%falsy_false. rewrite Htrace, Hd, Hc.
    by destruct login.
  - intros Hany. rewrite Htrace, Hstatus.
    destruct Hany as [Hd%falsy_true|Hc%falsy_true].
    + rewrite Hd. by destruct (falsy env "CLIENT_ID").
    + rewrite Hc. by destruct (falsy env "DISCORD_TOKEN").
Qed.

(** The four cases on concrete environments. *)
Example both_missing :
  trace (init ∅ "" None) =
    [ConsoleError "Error: Missing required environment variables:";
     ConsoleError "- DISCORD_TOKEN";
     ConsoleError "- CLIENT_ID";
     ConsoleError "Please add them to your .env file and restart the bot.";
     ProcessExit 1].
Proof. reflexivity. Qed.

Example token_missing :
  trace (init {[ "CLIENT_ID" := "42" ]} "" None) =
    [ConsoleError "Error: Missing required environment variables:";
     ConsoleError "- DISCORD_TOKEN";
     ConsoleError "Please add them to your .env file and restart the bot.";
     ProcessExit 1].
Proof. reflexivity. Qed.

Example empty_client_id_is_missing :
  listedNames (trace (init {[ "DISCORD_TOKEN" := "t0ken"; "CLIENT_ID" := "" ]} "t0ken" None))
  = ["CLIENT_ID"].
Proof. reflexivity. Qed.

Example none_missing :
  trace (init {[ "DISCORD_TOKEN" := "t0ken"; "CLIENT_ID" := "42" ]} "t0ken" None) =
    [SetupLogger; LoggerLog info "Starting bot..."; ClientLogin "t0ken"].
Proof. reflexivity. Qed.

(** ** Shutdown on signals *)

Section Shutdown.

Variable Client : Type.
Variable isReady : Client -> bool.
Variable destroy : Client -> Client.

Lemma turn_after_exit now ev (p : Process Client) code :
  status p = Some code →
  turn Client isReady destroy now ev p = (p, []).
Proof. intros E. unfold turn. by rewrite E. Qed.

Lemma turn_timer_early now k (p : Process Client) tm :
  status p = None →
  pending p !! k = Some tm →
  now < p_set_at tm + p_delay tm →
  turn Client isReady destroy now (TimerDue k) p = (p, []).
Proof.
  intros Hrun Hk Hlt. unfold turn. rewrite Hrun, Hk.
  destruct (Z.leb_spec (p_set_at tm + p_delay tm) now); [lia|done].
Qed.

Lemma turn_timer_due now k (p : Process Client) tm :
  status p = None →
  pending p !! k = Some tm →
  p_set_at tm + p_delay tm ≤ now →
  turn Client isReady destroy now (TimerDue k) p =
    ({| client := client p;
        pending := delete k (pending p);
        status := exitStatus (runCallback (p_callback tm)) |},
     trace (runCallback (p_callback tm))).
Proof.
  intros Hrun Hk Hle. unfold turn. rewrite Hrun, Hk.
  destruct (Z.leb_spec (p_set_at tm + p_delay tm) now); [done|lia].
Qed.

Lemma gracefulShutdown_spec now (p : Process Client) :
  gracefulShutdown Client isReady destroy now p =
    ({| client := if isReady (client p) then destroy (client p) else client p;
        pending := pending p ++ [shutdownTimer now];
        status := status p |},
     LoggerLog info "Shutting down gracefully..." ::
     (if isReady (client p)
      then [ClientDestroy; LoggerLog info "Discord client destroyed"]
      else [])).
Proof. unfold gracefulShutdown. by destruct (isReady (client p)). Qed.

(** C4, as the code has it.  [gracefulShutdown] has no guard against being
    run again: each termination signal logs, destroys the gateway client if
    the client reports ready at that moment, and schedules its own status-0
    exit 1500 ms later.  After two signals two exits are pending, and the
    second signal destroyed the client again exactly when the client still
    reported ready.  The process exits once: the first of the timers to run
    ends it with status 0, and no turn does anything after that. *)
Theorem each_signal_runs_shutdown s1 s2 t1 t2 (p : Process Client) :
  let r1 := onSignal Client isReady destroy s1 t1 p in
  let r2 := onSignal Client isReady destroy s2 t2 (fst r1) in
  pending (fst r1) = pending p ++ [shutdownTimer t1] ∧
  pending (fst r2) = pending p ++ [shutdownTimer t1; shutdownTimer t2] ∧
  client (fst r1) = (if isReady (client p) then destroy (client p) else client p) ∧
  count isDestroy (snd r1) = (if isReady (client p) then 1 else 0)%nat ∧
  count isDestroy (snd r2) = (if isReady (client (fst r1)) then 1 else 0)%nat ∧
  head (snd r2)
  = Some (LoggerLog info ("Bot shutdown initiated (" +:+ signalName s2 +:+ ")")) ∧
  (∀ now k (q : Process Client) t,
     status q = None →
     pending q !! k = Some (shutdownTimer t) →
     (now < t + 1500 →
      turn Client isReady destroy now (TimerDue k) q = (q, [])) ∧
     (t + 1500 ≤ now →
      status (fst (turn Client isReady destroy now (TimerDue k) q)) = Some 0 ∧
      snd (turn Client isReady destroy now (TimerDue k) q)
      = [LoggerLog info "Bot shutdown complete"; ProcessExit 0])) ∧
  (∀ now ev (q : Process Client) code,
     status q = Some code →
     turn Client isReady destroy now ev q = (q, [])).
Proof.
  intros r1 r2. subst r2 r1. unfold onSignal.
  rewrite !gracefulShutdown_spec. cbn [fst snd client pending status].
  split; [done|]. split; [by rewrite <- app_assoc|]. split; [done|].
  split; [by destruct (isReady (client p))|].
  split.
  { by destruct (isReady (if isReady (client p) then destroy (client p) else client p)). }
  split; [done|]. split.
  - intros now k q t Hrun Hk. split.
    + intros Hlt. by apply (turn_timer_early now k q (shutdownTimer t)).
    + intros Hle.
      by rewrite (turn_timer_due now k q (shutdownTimer t)).
  - intros now ev q code. apply turn_after_exit.
Qed.

(** ** Process-level faults *)

(** C7, as the code has it.  An uncaught exception is logged with its
    message and its stack and printed, and a timer is set that, 1000 ms
    later and not before, prints a last line and exits the process with
    status 1.  An unhandled rejection is logged and printed, and that is
    all: the process is left as it was, with no exit scheduled. *)
Theorem process_faults_logged (e : Thrown) now (p : Process Client) :
  let r := onUncaughtException Client e now p in
  snd r = [LoggerLog error ("Uncaught exception: " +:+ message e);
           LoggerLog error (stack e);
           ConsoleErrorWith "Uncaught exception:" e] ∧
  pending (fst r) = pending p ++ [crashTimer now] ∧
  client (fst r) = client p ∧
  status (fst r) = status p ∧
  (∀ later k (q : Process Client),
     status q = None →
     pending q !! k = Some (crashTimer now) →
     (later < now + 1000 →
      turn Client isReady destroy later (TimerDue k) q = (q, [])) ∧
     (now + 1000 ≤ later →
      status (fst (turn Client isReady destroy later (TimerDue k) q)) = Some 1 ∧
      snd (turn Client isReady destroy later (TimerDue k) q)
      = [ConsoleError "An uncaught exception caused the bot to crash. Exiting...";
         ProcessExit 1])) ∧
  onUnhandledRejection Client e p =
    (p, [LoggerLog error ("Unhandled rejection: " +:+ text e);
         ConsoleErrorWith "Unhandled rejection:" e]).
Proof.
  intros r. subst r. unfold onUncaughtException. cbn [fst snd pending client status].
  repeat (split; [done|]). split; [|done].
  intros later k q Hrun Hk. split.
  - intros Hlt. by apply (turn_timer_early later k q (crashTimer now)).
  - intros Hle. by rewrite (turn_timer_due later k q (crashTimer now)).
Qed.

End Shutdown.

(** C4, as stated, fails.  A serving process receives SIGINT at 0 and
    SIGTERM 10 ms later, before any timer has run: the second signal logs
    again and schedules a second exit, so it is not a no-op and the exit is
    scheduled twice. *)
Lemma second_signal_schedules_second_exit :
  let r1 := turn bool readyFlag clearFlag 0 (Signalled SIGINT) serving in
  let r2 := turn bool readyFlag clearFlag 10 (Signalled SIGTERM) (fst r1) in
  pending (fst r1) = [shutdownTimer 0] ∧
  pending (fst r2) = [shutdownTimer 0; shutdownTimer 10] ∧
  snd r2 = [LoggerLog info "Bot shutdown initiated (SIGTERM)";
            LoggerLog info "Shutting down gracefully..."] ∧
  count isDestroy (snd r1 ++ snd r2) = 1%nat.
Proof. repeat split; reflexivity. Qed.

(** A client that still reports ready after [destroy] is destroyed by each
    signal. *)
Example destroy_repeated_when_still_ready :
  count isDestroy
    (snd (turns bool readyFlag (λ c, c)
            [(0, Signalled SIGINT); (10, Signalled SIGTERM)] serving)) = 2%nat.
Proof. reflexivity. Qed.

(** The process exits once, with status 0, when the first timer runs. *)
Example two_signals_one_exit :
  let r := turns bool readyFlag clearFlag
             [(0, Signalled SIGINT); (10, Signalled SIGTERM);
              (1500, TimerDue 0); (1510, TimerDue 0)] serving in
  status (fst r) = Some 0 ∧ count isExit (snd r) = 1%nat.
Proof. split; reflexivity. Qed.

(** C7, as stated, fails.  An unhandled rejection reaches a serving process
    at 0: it is logged, no exit is scheduled, and the process is still
    running however long one waits. *)
Lemma unhandled_rejection_does_not_exit :
  let r := turn bool readyFlag clearFlag 0 (UnhandledRejection rejection) serving in
  let later := turns bool readyFlag clearFlag
                 [(1000, TimerDue 0); (60000, TimerDue 0)] (fst r) in
  snd r = [LoggerLog error "Unhandled rejection: Error: socket hang up";
           ConsoleErrorWith "Unhandled rejection:" rejection] ∧
  pending (fst r) = [] ∧
  status (fst r) = None ∧
  status (fst later) = None ∧
  count isExit (snd r ++ snd later) = 0%nat.
Proof. repeat split; reflexivity. Qed.

(** An uncaught exception, by contrast, ends the process a second later. *)
Example uncaught_exception_exits :
  let r := turns bool readyFlag clearFlag
             [(0, UncaughtException rejection); (999, TimerDue 0); (1000, TimerDue 0)]
             serving in
  status (fst r) = Some 1 ∧
  snd r = [LoggerLog error "Uncaught exception: socket hang up";
           LoggerLog error "Error: socket hang up at connResetException";
           ConsoleErrorWith "Uncaught exception:" rejection;
           ConsoleError "An uncaught exception caused the bot to crash. Exiting...";
           ProcessExit 1].
Proof. split; reflexivity. Qed.

End LifecycleFacts.

(** * Properties of reachable registries *)

Module RegistryFacts.
Import Router Registry.

Lemma entry_initialState n u : entry initialState n u = None.
Proof. unfold entry, initialState. simpl. by rewrite lookup_empty. Qed.

(** A timer takes entries away and adds none. *)
Lemma entry_fireTimer_Some k st tm n u t :
  timers st !! k = Some tm →
  entry (fireTimer k st) n u = Some t →
  entry st n u = Some t ∧ ¬ (t_name tm = n ∧ t_user tm = u).
Proof.
  intros Hk Hentry.
  destruct (decide (t_name tm = n ∧ t_user tm = u)) as [[<- <-]|Hne].
  - unfold fireTimer in Hentry. rewrite Hk in Hentry.
    unfold entry in Hentry. simpl in Hentry.
    by rewrite RouterFacts.entry_runTimer_same in Hentry.
  - by rewrite (RouterFacts.fireTimer_frame k st tm) in Hentry.
Qed.

Lemma elem_of_delete_other {A} (l : list A) k x y :
  l !! k = Some x → y ∈ l → y ≠ x → y ∈ delete k l.
Proof.
  intros Hk Hin Hne.
  rewrite (delete_Permutation l k x Hk) in Hin.
  apply elem_of_cons in Hin as [->|Hin]; done.
Qed.

Lemma step_backed W t1 st st1 : step W t1 st st1 → backed st → backed st1.
Proof.
  intros Hstep Hb.
  destruct Hstep as [st i|st k tm Hk Hdue].
  - destruct (RouterFacts.dispatch_state_cases W st t1 i)
      as [->|(commandName & command & _ & _ & _ & Hallowed & Hframe)]; [done|].
    destruct Hallowed as (Hentry & Htimers & _).
    intros n u t Hn. rewrite Htimers.
    destruct (decide (n = data_name command ∧ u = id (user i))) as [[-> ->]|Hne].
    + rewrite Hentry in Hn. injection Hn as <-.
      eexists. split; [apply elem_of_app; right; apply list_elem_of_singleton; done|].
      done.
    + rewrite (Hframe n u Hne) in Hn.
      destruct (Hb n u t Hn) as (tm & Hin & Htm).
      exists tm. split; [apply elem_of_app; by left|done].
  - intros n u t Hn.
    destruct (entry_fireTimer_Some k st tm n u t Hk Hn) as [Hold Hne].
    destruct (Hb n u t Hold) as (tm' & Hin & Hn' & Hu' & Ht').
    exists tm'. split; [|done].
    rewrite (RouterFacts.fireTimer_timers k st tm Hk).
    apply (elem_of_delete_other _ k tm); [done|done|].
    intros ->. by apply Hne.
Qed.

Lemma run_backed W t st t' st' : run W t st t' st' → backed st → backed st'.
Proof.
  induction 1 as [|t t1 t' st st1 st' Hle Hstep Hrun IH]; [done|].
  intros Hb. apply IH. by apply (step_backed W t1 st).
Qed.

Lemma notAhead_later t t' st : t ≤ t' → notAhead t st → notAhead t' st.
Proof. intros Hle Hn n u x Hx. specialize (Hn n u x Hx). lia. Qed.

Lemma step_notAhead W t1 st st1 : step W t1 st st1 → notAhead t1 st → notAhead t1 st1.
Proof.
  intros Hstep Hna.
  destruct Hstep as [st i|st k tm Hk Hdue].
  - destruct (RouterFacts.dispatch_state_cases W st t1 i)
      as [->|(commandName & command & _ & _ & _ & Hallowed & Hframe)]; [done|].
    destruct Hallowed as (Hentry & _ & _).
    intros n u t Hn.
    destruct (decide (n = data_name command ∧ u = id (user i))) as [[-> ->]|Hne].
    + rewrite Hentry in Hn. injection Hn as <-. lia.
    + rewrite (Hframe n u Hne) in Hn. by apply (Hna n u).
  - intros n u t Hn.
    destruct (entry_fireTimer_Some k st tm n u t Hk Hn) as [Hold _].
    by apply (Hna n u).
Qed.

Lemma run_notAhead W t st t' st' :
  run W t st t' st' → notAhead t st → notAhead t' st'.
Proof.
  induction 1 as [t t' st Hle|t t1 t' st st1 st' Hle Hstep Hrun IH].
  - by apply notAhead_later.
  - intros Hna. apply IH. apply (step_notAhead W t1 st); [done|].
    by apply (notAhead_later t).
Qed.

Lemma lookup_runTimer_is_Some tm cds n :
  is_Some (runTimer tm cds !! n) ↔ is_Some (cds !! n).
Proof.
  unfold runTimer.
  destruct (cds !! t_name tm) as [ts|] eqn:E; [|done].
  destruct (decide (t_name tm = n)) as [<-|Hne].
  - rewrite lookup_insert_eq, E. split; eauto.
  - by rewrite lookup_insert_ne.
Qed.

Lemma lookup_ensureCollection_is_Some name cds n :
  is_Some (ensureCollection name cds !! n) ↔ n = name ∨ is_Some (cds !! n).
Proof.
  unfold ensureCollection.
  destruct (cds !! name) as [ts|] eqn:E.
  - split; [by right|]. intros [->|H]; [rewrite E; eauto|done].
  - rewrite lookup_insert_is_Some. split.
    + intros [->|[_ H]]; [by left|by right].
    + intros [->|H]; [by left|].
      destruct (decide (name = n)) as [->|Hne]; [by left|by right].
Qed.

(** The Collections present after a dispatch: those present before, and the
    one of the command that was let through. *)
Lemma dispatch_collections W st now i n :
  is_Some (cooldowns (state (onInteractionCreate W st now i)) !! n) →
  is_Some (cooldowns st !! n) ∨
  ∃ commandName command,
    commands W !! commandName = Some command ∧ data_name command = n.
Proof.
  destruct (kind i) as [commandName| customId |] eqn:Hkind.
  - destruct (commands W !! commandName) as [command|] eqn:Hcommand.
    + destruct (RouterFacts.entry_cases st now i command) as [Hfree|(t & Ht & Hlt)].
      * rewrite (RouterFacts.dispatch_allowed W st now i commandName command
                   Hkind Hcommand Hfree).
        simpl. rewrite lookup_insert_is_Some.
        intros [<-|[_ H]]; [right; eauto|].
        apply lookup_ensureCollection_is_Some in H as [->|H]; [right; eauto|by left].
      * rewrite (RouterFacts.dispatch_throttled W st now i commandName command
                   Hkind Hcommand t Ht Hlt).
        by left.
    + unfold onInteractionCreate. rewrite Hkind, Hcommand. by left.
  - unfold onInteractionCreate. rewrite Hkind.
    destruct (String.prefix _ _); [|by left]. destruct (fault _); by left.
  - unfold onInteractionCreate. rewrite Hkind. by left.
Qed.

Lemma step_keysRegistered W t1 st st1 :
  step W t1 st st1 → keysRegistered W st → keysRegistered W st1.
Proof.
  intros Hstep Hk.
  destruct Hstep as [st i|st k tm Hk' Hdue].
  - intros n Hn. apply dispatch_collections in Hn as [Hn|Hn]; [by apply Hk|done].
  - intros n Hn. apply Hk. unfold fireTimer in Hn. rewrite Hk' in Hn.
    simpl in Hn. by apply lookup_runTimer_is_Some in Hn.
Qed.

Lemma run_keysRegistered W t st t' st' :
  run W t st t' st' → keysRegistered W st → keysRegistered W st'.
Proof.
  induction 1 as [|t t1 t' st st1 st' Hle Hstep Hrun IH]; [done|].
  intros Hk. apply IH. by apply (step_keysRegistered W t1 st).
Qed.

Lemma dispatch_collections_kept W st now i n :
  is_Some (cooldowns st !! n) →
  is_Some (cooldowns (state (onInteractionCreate W st now i)) !! n).
Proof.
  intros Hn.
  destruct (kind i) as [commandName| customId |] eqn:Hkind.
  - destruct (commands W !! commandName) as [command|] eqn:Hcommand.
    + destruct (RouterFacts.entry_cases st now i command) as [Hfree|(t & Ht & Hlt)].
      * rewrite (RouterFacts.dispatch_allowed W st now i commandName command
                   Hkind Hcommand Hfree).
        simpl. rewrite lookup_insert_is_Some.
        destruct (decide (data_name command = n)) as [->|Hne]; [by left|right].
        split; [done|]. apply lookup_ensureCollection_is_Some. by right.
      * by rewrite (RouterFacts.dispatch_throttled W st now i commandName command
                      Hkind Hcommand t Ht Hlt).
    + unfold onInteractionCreate. by rewrite Hkind, Hcommand.
  - unfold onInteractionCreate. rewrite Hkind.
    destruct (String.prefix _ _); [|done]. by destruct (fault _).
  - unfold onInteractionCreate. by rewrite Hkind.
Qed.

Lemma step_collections_kept W t1 st st1 n :
  step W t1 st st1 → is_Some (cooldowns st !! n) → is_Some (cooldowns st1 !! n).
Proof.
  intros Hstep Hn.
  destruct Hstep as [st i|st k tm Hk Hdue].
  - by apply dispatch_collections_kept.
  - unfold fireTimer. rewrite Hk. simpl. by apply lookup_runTimer_is_Some.
Qed.

(** A run of one dispatch. *)
Lemma one_dispatch_run W t st i t' :
  t ≤ t' → run W t st t' (state (onInteractionCreate W st t i)).
Proof.
  intros Hle.
  apply (run_turn W t t t' st (state (onInteractionCreate W st t i))
           (state (onInteractionCreate W st t i)) (Z.le_refl t)).
  - apply step_interaction.
  - by apply run_done.
Qed.

(** ** The queue of timers run dry *)

Lemma fireFirst_all l cds :
  fireFirst (length l) {| cooldowns := cds; timers := l |}
  = {| cooldowns := foldl (λ c tm, runTimer tm c) cds l; timers := [] |}.
Proof.
  revert cds. induction l as [|tm l IH]; intros cds; [done|].
  simpl. unfold fireTimer. simpl. apply IH.
Qed.

Lemma runTimer_keeps_None tm cds n u :
  cds !! n ≫= (λ ts : gmap string Z, ts !! u) = None →
  runTimer tm cds !! n ≫= (λ ts : gmap string Z, ts !! u) = None.
Proof.
  intros Hnone.
  destruct (decide (t_name tm = n ∧ t_user tm = u)) as [[<- <-]|Hne].
  - apply RouterFacts.entry_runTimer_same.
  - by rewrite RouterFacts.entry_runTimer_other.
Qed.

Lemma timers_keep_None l cds n u :
  cds !! n ≫= (λ ts : gmap string Z, ts !! u) = None →
  foldl (λ c tm, runTimer tm c) cds l !! n ≫= (λ ts : gmap string Z, ts !! u) = None.
Proof.
  revert cds. induction l as [|tm l IH]; intros cds Hnone; [done|].
  simpl. apply IH. by apply runTimer_keeps_None.
Qed.

Lemma timers_delete_their_entries l cds tm :
  tm ∈ l →
  foldl (λ c tm, runTimer tm c) cds l !! t_name tm
    ≫= (λ ts : gmap string Z, ts !! t_user tm) = None.
Proof.
  revert cds. induction l as [|tm' l IH]; intros cds Hin.
  - by apply elem_of_nil in Hin.
  - apply elem_of_cons in Hin as [->|Hin]; simpl.
    + apply timers_keep_None. apply RouterFacts.entry_runTimer_same.
    + by apply IH.
Qed.

Lemma drain_backed st n u :
  backed st → entry (drain st) n u = None ∧ timers (drain st) = [].
Proof.
  intros Hb. unfold drain. destruct st as [cds l].
  rewrite fireFirst_all. unfold entry. simpl. split; [|done].
  destruct (cds !! n ≫= (λ ts : gmap string Z, ts !! u)) as [t|] eqn:E.
  - destruct (Hb n u t E) as (tm & Hin & <- & <- & _).
    by apply timers_delete_their_entries.
  - by apply timers_keep_None.
Qed.

(** ** What holds of every registry the listener and its timers reach *)

(** X1.  In every state reached from the empty registry, an entry is the
    time of a dispatch that has taken place, and the timer that line 133
    set at that time for the pair is still pending: no entry is left
    without its removal scheduled. *)
Theorem entries_backed_by_timers W t t' st n u x :
  run W t initialState t' st →
  entry st n u = Some x →
  x ≤ t' ∧
  ∃ tm, tm ∈ timers st ∧ t_name tm = n ∧ t_user tm = u ∧ set_at tm = x.
Proof.
  intros Hrun Hentry. split.
  - assert (notAhead t initialState) as H0
      by (intros ???; by rewrite entry_initialState).
    by apply (run_notAhead W t initialState t' st Hrun H0 n u).
  - assert (backed initialState) as H0
      by (intros ???; by rewrite entry_initialState).
    by apply (run_backed W t initialState t' st Hrun H0).
Qed.

Lemma entries_backed_by_timers_witness :
  0 ≤ 1000 ∧
  ∃ tm,
    tm ∈ timers (Scenario.after Scenario.online initialState 0
                   (Scenario.slash "ping" Scenario.U1)) ∧
    t_name tm = "ping" ∧ t_user tm = "1001" ∧ set_at tm = 0.
Proof.
  apply (entries_backed_by_timers Scenario.online 0 1000
           (Scenario.after Scenario.online initialState 0
              (Scenario.slash "ping" Scenario.U1)) "ping" "1001" 0).
  - apply one_dispatch_run. lia.
  - reflexivity.
Defined.

(** X2.  In every state reached from the empty registry, once the timers
    that are pending have all run, no (command, caller) pair has an entry
    and no timer is left: entries do not outlive their timers. *)
Theorem drained_registry_is_empty W t t' st n u :
  run W t initialState t' st →
  entry (drain st) n u = None ∧ timers (drain st) = [].
Proof.
  intros Hrun. apply drain_backed.
  apply (run_backed W t initialState t' st Hrun).
  intros ???. by rewrite entry_initialState.
Qed.

Lemma drained_registry_is_empty_witness :
  entry (drain (Scenario.after Scenario.online initialState 0
                  (Scenario.slash "ping" Scenario.U1))) "ping" "1001" = None ∧
  timers (drain (Scenario.after Scenario.online initialState 0
                   (Scenario.slash "ping" Scenario.U1))) = [].
Proof.
  apply (drained_registry_is_empty Scenario.online 0 1000).
  apply one_dispatch_run. lia.
Defined.

(** X3.  In every state reached from the empty registry, a caller who is
    throttled is told to wait more than nothing and no more than the
    command's cooldown. *)
Theorem wait_never_exceeds_cooldown W t t' st now i commandName command remainingMs :
  run W t initialState t' st →
  t' ≤ now →
  kind i = ChatInputCommand commandName →
  commands W !! commandName = Some command →
  throttled command remainingMs st (onInteractionCreate W st now i) →
  0 < remainingMs ≤ cooldownAmount command.
Proof.
  intros Hrun Hle Hkind Hcommand Hthr.
  destruct (RouterFacts.throttled_inv W st now i commandName command remainingMs
              Hkind Hcommand Hthr) as (x & Hx & Hlt & ->).
  assert (notAhead t initialState) as H0
    by (intros ???; by rewrite entry_initialState).
  pose proof (run_notAhead W t initialState t' st Hrun H0 _ _ _ Hx).
  unfold expiry in *. lia.
Qed.

Lemma wait_never_exceeds_cooldown_witness : 0 < 2000 ≤ 3000.
Proof.
  apply (wait_never_exceeds_cooldown Scenario.online 0 1000
           (Scenario.after Scenario.online initialState 0
              (Scenario.slash "ping" Scenario.U1))
           1000 (Scenario.slash "ping" Scenario.U1) "ping" Scenario.ping 2000).
  - apply one_dispatch_run. lia.
  - lia.
  - reflexivity.
  - reflexivity.
  - split; reflexivity.
Defined.

(** X4.  Over any turns of the event loop the Collections of
    [client.cooldowns] are never removed, and a Collection that was not
    there before is stored under the name of a registered command: the
    outer map has at most one Collection per command, and the Collection a
    timer's closure holds stays the one stored under its name. *)
Theorem collections_persist_and_are_registered W t st t' st' n :
  run W t st t' st' →
  (is_Some (cooldowns st !! n) → is_Some (cooldowns st' !! n)) ∧
  (is_Some (cooldowns st' !! n) →
   is_Some (cooldowns st !! n) ∨
   ∃ commandName command,
     commands W !! commandName = Some command ∧ data_name command = n).
Proof.
  induction 1 as [|t t1 t' st st1 st' Hle Hstep Hrun [IHkept IHnew]].
  - split; [done|by left].
  - split.
    + intros Hn. apply IHkept. by apply (step_collections_kept W t1 st).
    + intros Hn. destruct (IHnew Hn) as [H1|H1]; [|by right].
      destruct Hstep as [st i|st k tm Hk Hdue].
      * by apply dispatch_collections in H1.
      * left. unfold fireTimer in H1. rewrite Hk in H1. simpl in H1.
        by apply lookup_runTimer_is_Some in H1.
Qed.

Lemma collections_persist_and_are_registered_witness :
  is_Some (cooldowns (Scenario.after Scenario.online initialState 0
                        (Scenario.slash "ping" Scenario.U1)) !! "ping") ∧
  (is_Some (cooldowns initialState !! "ping") ∨
   ∃ commandName command,
     commands Scenario.online !! commandName = Some command ∧
     data_name command = "ping").
Proof.
  assert (is_Some (cooldowns (Scenario.after Scenario.online initialState 0
                                (Scenario.slash "ping" Scenario.U1)) !! "ping"))
    as Hthere by (eexists; reflexivity).
  split; [exact Hthere|].
  apply (collections_persist_and_are_registered Scenario.online 0 initialState 1000
           (Scenario.after Scenario.online initialState 0
              (Scenario.slash "ping" Scenario.U1)) "ping");
    [|exact Hthere].
  apply one_dispatch_run. lia.
Defined.

End RegistryFacts.

(** * Buttons *)

Module ButtonFacts.
Import Router Registry.

(** X5.  A button interaction never reaches a command or the cooldown
    registry, and the listener's promise resolves.  A [customId] that does
    not start with [ticket_] is ignored without any effect; one that does is
    handed to the ticket delegate once, and if the delegate faults the
    caller gets exactly one ephemeral error notice, a follow-up when the
    interaction was already replied to or deferred and a reply otherwise. *)
Theorem button_dispatch W st now i customId :
  kind i = Button customId →
  let r := onInteractionCreate W st now i in
  let s := handleTicketButton W i in
  state r = st ∧
  outcome r = Resolved ∧
  count isExecute (effects r) = 0%nat ∧
  (String.prefix "ticket_" customId = false → effects r = []) ∧
  (String.prefix "ticket_" customId = true →
   count isDelegate (effects r) = 1%nat ∧
   count isNotification (effects r)
   = (match fault s with Some _ => 1 | None => 0 end)%nat ∧
   (∀ e, fault s = Some e →
      (if replied s || deferred s
       then InteractionFollowUp replyContent
       else InteractionReply replyContent) ∈ effects r)).
Proof.
  intros Hkind r s. subst r s. unfold onInteractionCreate. rewrite Hkind.
  destruct (String.prefix "ticket_" customId).
  - destruct (fault (handleTicketButton W i)) as [e|] eqn:Hfault; cbn [state outcome effects].
    + split; [done|]. split; [done|]. split.
      { unfold catchBlock.
        destruct (replied _ || deferred _);
          [by destruct (followUp W i replyContent)|by destruct (reply W i replyContent)]. }
      split; [done|]. intros _. split; [|split].
      * unfold catchBlock.
        destruct (replied _ || deferred _);
          [by destruct (followUp W i replyContent)|by destruct (reply W i replyContent)].
      * apply (RouterFacts.count_catchBlock W i (handleTicketButton W i) e).
      * intros e' _. unfold catchBlock.
        destruct (replied _ || deferred _);
          do 2 apply list_elem_of_further; apply list_elem_of_here.
    + repeat split; done.
  - repeat split; try done.
Qed.

Lemma button_dispatch_witness :
  state (onInteractionCreate Scenario.lapsed initialState 0
           {| kind := Button "ticket_create"; user := Scenario.U1 |})
  = initialState.
Proof.
  apply (button_dispatch Scenario.lapsed initialState 0
           {| kind := Button "ticket_create"; user := Scenario.U1 |}
           "ticket_create" eq_refl).
Defined.

Example ticket_button_fault :
  effects (onInteractionCreate Scenario.lapsed initialState 0
             {| kind := Button "ticket_create"; user := Scenario.U1 |})
  = [HandleTicketButton "ticket_create";
     LoggerLog error "Error handling interaction: Error: boom";
     InteractionFollowUp replyContent;
     LoggerLog error
       "Could not send error followup: DiscordAPIError[10062]: Unknown interaction"].
Proof. reflexivity. Qed.

Example other_button_ignored :
  effects (onInteractionCreate Scenario.lapsed initialState 0
             {| kind := Button "poll_vote"; user := Scenario.U1 |}) = [].
Proof. reflexivity. Qed.

End ButtonFacts.

(** * Properties of start-up and of sequences of process events *)

Module ProcessFacts.
Import Lifecycle Events.

(** X6.  [init] ends the process exactly when [DISCORD_TOKEN] or
    [CLIENT_ID] is missing from the environment (not set, or set to the
    empty string) or [client.login] rejects, and then with status 1, never
    0.  With both variables present it sets up the logger, logs that it
    starts and calls [client.login] once with the configured token; a
    rejected login is printed, logged with its message, and followed by the
    exit. *)
Theorem init_exits_only_with_status_one env token login :
  let m := init env token login in
  let missing (v : string) := env !! v = None ∨ env !! v = Some "" in
  let present (v : string) := ∃ s, env !! v = Some s ∧ s ≠ "" in
  (exitStatus m = Some 1 ↔
   missing "DISCORD_TOKEN" ∨ missing "CLIENT_ID" ∨ ∃ e, login = Some e) ∧
  (exitStatus m = None ↔
   present "DISCORD_TOKEN" ∧ present "CLIENT_ID" ∧ login = None) ∧
  (List.filter isExit (trace m) = [] ∨
   List.filter isExit (trace m) = [ProcessExit 1]) ∧
  (missing "DISCORD_TOKEN" ∨ missing "CLIENT_ID" →
   count isLogin (trace m) = 0%nat) ∧
  (present "DISCORD_TOKEN" → present "CLIENT_ID" →
   trace m =
     [SetupLogger; LoggerLog info "Starting bot..."; ClientLogin token] ++
     match login with
     | None => []
     | Some e =>
         [ConsoleErrorWith "Failed to initialize bot:" e;
          LoggerLog error ("Initialization error: " +:+ message e);
          ProcessExit 1]
     end).
Proof.
  intros m missing present. subst m missing present. cbv beta.
  destruct (LifecycleFacts.init_by_flags env token login) as [Htrace Hstatus].
  rewrite <- !LifecycleFacts.falsy_true, <- !LifecycleFacts.falsy_false.
  rewrite Htrace, Hstatus.
  destruct (falsy env "DISCORD_TOKEN"), (falsy env "CLIENT_ID");
    destruct login as [e|]; cbn.
  all: repeat split; intros;
    repeat match goal with
           | H : _ ∨ _ |- _ => destruct H
           | H : _ ∧ _ |- _ => destruct H
           | H : ∃ _, _ |- _ => destruct H
           end;
    try done; eauto.
Qed.

Example login_rejected :
  trace (init {[ "DISCORD_TOKEN" := "t0ken"; "CLIENT_ID" := "42" ]} "t0ken"
           (Some rejection)) =
    [SetupLogger; LoggerLog info "Starting bot..."; ClientLogin "t0ken";
     ConsoleErrorWith "Failed to initialize bot:" rejection;
     LoggerLog error "Initialization error: socket hang up";
     ProcessExit 1].
Proof. reflexivity. Qed.

Section Sequences.

Variable Client : Type.
Variable isReady : Client -> bool.
Variable destroy : Client -> Client.

Lemma count_app p l1 l2 : count p (l1 ++ l2) = (count p l1 + count p l2)%nat.
Proof. unfold count. by rewrite List.filter_app, length_app. Qed.

Lemma turns_cons now ev evs (p : Process Client) :
  Lifecycle.turns Client isReady destroy ((now, ev) :: evs) p =
    (fst (Lifecycle.turns Client isReady destroy evs
            (fst (Lifecycle.turn Client isReady destroy now ev p))),
     snd (Lifecycle.turn Client isReady destroy now ev p) ++
     snd (Lifecycle.turns Client isReady destroy evs
            (fst (Lifecycle.turn Client isReady destroy now ev p)))).
Proof.
  change (Lifecycle.turns Client isReady destroy ((now, ev) :: evs) p)
    with (let '(p1, tr1) := Lifecycle.turn Client isReady destroy now ev p in
          let '(p2, tr2) := Lifecycle.turns Client isReady destroy evs p1 in
          (p2, tr1 ++ tr2)).
  destruct (Lifecycle.turn Client isReady destroy now ev p) as [p1 tr1]. simpl.
  by destruct (Lifecycle.turns Client isReady destroy evs p1) as [p2 tr2].
Qed.

Lemma turns_after_exit evs (p : Process Client) code :
  status p = Some code → Lifecycle.turns Client isReady destroy evs p = (p, []).
Proof.
  intros Hexit. induction evs as [|[now ev] evs IH]; [done|].
  rewrite turns_cons, (LifecycleFacts.turn_after_exit Client isReady destroy now ev p code Hexit).
  simpl. by rewrite IH.
Qed.

Lemma turn_signal now s (p : Process Client) :
  status p = None →
  Lifecycle.turn Client isReady destroy now (Signalled s) p =
    ({| client := if isReady (client p) then destroy (client p) else client p;
        pending := pending p ++ [shutdownTimer now];
        status := None |},
     LoggerLog info ("Bot shutdown initiated (" +:+ signalName s +:+ ")") ::
     LoggerLog info "Shutting down gracefully..." ::
     (if isReady (client p)
      then [ClientDestroy; LoggerLog info "Discord client destroyed"]
      else [])).
Proof.
  intros Hrun. unfold Lifecycle.turn. rewrite Hrun. unfold onSignal.
  rewrite LifecycleFacts.gracefulShutdown_spec. by rewrite Hrun.
Qed.

(** X7.  While no timer runs, every termination signal adds one pending
    status-0 exit, 1500 ms after the signal, and the process keeps running.
    If a destroyed client no longer reports ready, the client is destroyed
    by the first signal only, and only if it was ready then. *)
Theorem signals_each_schedule_an_exit (sigs : list (Z * Signal)) (p : Process Client) :
  status p = None →
  (∀ c, isReady (destroy c) = false) →
  pending (fst (Lifecycle.turns Client isReady destroy (signalled sigs) p))
  = pending p ++ map (λ x, shutdownTimer (fst x)) sigs ∧
  status (fst (Lifecycle.turns Client isReady destroy (signalled sigs) p)) = None ∧
  count isDestroy (snd (Lifecycle.turns Client isReady destroy (signalled sigs) p))
  = (if isReady (client p) then match sigs with [] => 0 | _ :: _ => 1 end else 0)%nat.
Proof.
  intros Hrun Hdestroy. revert p Hrun.
  induction sigs as [|[now s] sigs IH]; intros p Hrun.
  - simpl. rewrite app_nil_r. by destruct (isReady (client p)).
  - unfold signalled. rewrite map_cons. fold (signalled sigs).
    cbn [fst snd]. rewrite turns_cons, (turn_signal now s p Hrun). cbn [fst snd].
    set (p1 := {| client := if isReady (client p) then destroy (client p) else client p;
                  pending := pending p ++ [shutdownTimer now];
                  status := None |}).
    destruct (IH p1 eq_refl) as (Hpending & Hstatus & Hcount).
    split; [|split].
    + rewrite Hpending. subst p1. cbn [pending]. by rewrite <- app_assoc.
    + done.
    + change (?a :: ?b :: ?l ++ ?r) with ((a :: b :: l) ++ r).
      rewrite count_app, Hcount. subst p1. cbn [client].
      destruct (isReady (client p)) eqn:Hready.
      * rewrite Hdestroy. done.
      * rewrite Hready. done.
Qed.

Lemma existsb_snoc {A} (f : A → bool) l x :
  existsb f (l ++ [x]) = existsb f l || f x.
Proof. rewrite existsb_app. simpl. by rewrite orb_false_r. Qed.

Lemma existsb_lookup {A} (f : A → bool) (l : list A) k x :
  l !! k = Some x → f x = true → existsb f l = true.
Proof.
  intros Hk Hf. apply existsb_exists. exists x. split; [|done].
  apply list_elem_of_In, list_elem_of_lookup. eauto.
Qed.

(** Where an exit status comes from: a timer that was pending, or an event
    that set one. *)
Lemma exit_status_cause evs (p : Process Client) code :
  status p = None →
  status (fst (Lifecycle.turns Client isReady destroy evs p)) = Some code →
  (code = 0 ∧
   existsb (hasCallback ShutdownComplete) (pending p) || existsb isSignalled evs = true) ∨
  (code = 1 ∧
   existsb (hasCallback CrashExit) (pending p) || existsb isUncaught evs = true).
Proof.
  revert p. induction evs as [|[now ev] evs IH]; intros p Hrun Hexit.
  - simpl in Hexit. congruence.
  - rewrite turns_cons in Hexit. cbn [fst] in Hexit.
    destruct ev as [s|e|e|k].
    + rewrite (turn_signal now s p Hrun) in Hexit. cbn [fst] in Hexit.
      apply IH in Hexit; [|done]. cbn [pending] in Hexit.
      rewrite !existsb_snoc in Hexit. cbn in Hexit. cbn [existsb].
      unfold isSignalled at 1. cbn [snd].
      destruct Hexit as [[-> H]|[-> H]]; [left|right]; split; try done.
      * by rewrite orb_true_r.
      * by rewrite orb_false_r in H.
    + unfold Lifecycle.turn in Hexit. rewrite Hrun in Hexit.
      cbn [fst onUnhandledRejection] in Hexit.
      apply IH in Hexit; [|done]. cbn [existsb].
      unfold isSignalled at 1, isUncaught at 1. by cbn [snd orb].
    + unfold Lifecycle.turn in Hexit. rewrite Hrun in Hexit.
      cbn [fst onUncaughtException] in Hexit.
      apply IH in Hexit; [|done]. cbn [pending] in Hexit.
      rewrite !existsb_snoc in Hexit. cbn in Hexit. cbn [existsb].
      unfold isUncaught at 1. cbn [snd].
      destruct Hexit as [[-> H]|[-> H]]; [left|right]; split; try done.
      * by rewrite orb_false_r in H.
      * by rewrite orb_true_r.
    + unfold Lifecycle.turn in Hexit. rewrite Hrun in Hexit.
      cbn [existsb]. unfold isSignalled at 1, isUncaught at 1. cbn [snd orb].
      destruct (pending p !! k) as [tm|] eqn:Hk; [|by apply IH].
      destruct (p_set_at tm + p_delay tm <=? now); [|by apply IH].
      cbn [fst] in Hexit.
      destruct (p_callback tm) eqn:Hcb; cbn [runCallback] in Hexit.
      * rewrite turns_after_exit with (code := 0) in Hexit by reflexivity.
        cbn in Hexit. injection Hexit as <-. left. split; [done|].
        rewrite (existsb_lookup _ _ k tm Hk); [done|].
        unfold hasCallback. by rewrite Hcb.
      * rewrite turns_after_exit with (code := 1) in Hexit by reflexivity.
        cbn in Hexit. injection Hexit as <-. right. split; [done|].
        rewrite (existsb_lookup _ _ k tm Hk); [done|].
        unfold hasCallback. by rewrite Hcb.
Qed.

(** X8.  From a process with nothing pending, whatever events arrive and
    whichever timers run: the process ends with status 0 only if a
    termination signal was delivered, and with status 1 only if an uncaught
    exception occurred; no other status is possible, and unhandled
    rejections alone never end it. *)
Theorem exit_status_provenance evs (p : Process Client) code :
  status p = None →
  pending p = [] →
  status (fst (Lifecycle.turns Client isReady destroy evs p)) = Some code →
  (code = 0 ∧ existsb isSignalled evs = true) ∨
  (code = 1 ∧ existsb isUncaught evs = true).
Proof.
  intros Hrun Hnone Hexit.
  destruct (exit_status_cause evs p code Hrun Hexit) as [[-> H]|[-> H]];
    rewrite Hnone in H; [left|right]; done.
Qed.

End Sequences.

Lemma signals_each_schedule_an_exit_witness :
  pending (fst (Lifecycle.turns bool readyFlag clearFlag
                  (signalled [(0, SIGINT); (10, SIGTERM); (20, SIGINT)]) serving))
  = [shutdownTimer 0; shutdownTimer 10; shutdownTimer 20] ∧
  status (fst (Lifecycle.turns bool readyFlag clearFlag
                 (signalled [(0, SIGINT); (10, SIGTERM); (20, SIGINT)]) serving))
  = None ∧
  count isDestroy
    (snd (Lifecycle.turns bool readyFlag clearFlag
            (signalled [(0, SIGINT); (10, SIGTERM); (20, SIGINT)]) serving))
  = 1%nat.
Proof.
  apply (signals_each_schedule_an_exit bool readyFlag clearFlag
           [(0, SIGINT); (10, SIGTERM); (20, SIGINT)] serving eq_refl
           (λ c, eq_refl)).
Defined.

Lemma exit_status_provenance_witness :
  (0 = 0 ∧
   existsb isSignalled
     [(0, Signalled SIGINT); (200, UncaughtException rejection); (1500, TimerDue 0)]
   = true) ∨
  (0 = 1 ∧
   existsb isUncaught
     [(0, Signalled SIGINT); (200, UncaughtException rejection); (1500, TimerDue 0)]
   = true).
Proof.
  apply (exit_status_provenance bool readyFlag clearFlag
           [(0, Signalled SIGINT); (200, UncaughtException rejection); (1500, TimerDue 0)]
           serving 0 eq_refl eq_refl eq_refl).
Defined.

(** An uncaught exception shortly after a signal ends the process first,
    with status 1. *)
Example crash_overtakes_shutdown :
  status (fst (Lifecycle.turns bool readyFlag clearFlag
                 [(0, Signalled SIGINT); (200, UncaughtException rejection);
                  (1200, TimerDue 1); (1500, TimerDue 0)] serving)) = Some 1.
Proof. reflexivity. Qed.

End ProcessFacts.

(** * Properties of the logger module *)

Module LoggerFacts.
Import Logger.

Lemma tryBlock_cases cfg h :
  (∃ done e, tryBlock cfg h = (done, inl e)) ∨
  (∃ done, tryBlock cfg h = (done, inr (configured cfg))).
Proof.
  unfold tryBlock.
  destruct (existsSync h (filePath cfg)).
  - destruct (winston h); [left|right]; eauto.
  - destruct (mkdirSync h (filePath cfg)); [left; eauto|].
    destruct (winston h); [left|right]; eauto.
Qed.

Lemma loggers_differ cfg :
  defaultLogger ≠ configured cfg ∧
  defaultLogger ≠ fallbackLogger ∧
  fallbackLogger ≠ configured cfg.
Proof. repeat split; discriminate. Qed.

(** X9.  When the log directory is there or can be created and winston
    builds the logger, [setupLogger] creates the directory only if it was
    missing, stores the configured logger in the module and returns it, and
    the accessor hands out that same logger from then on, whatever logger
    the module held before. *)
Theorem setupLogger_stores_configured cfg h module :
  winston h = None →
  (existsSync h (filePath cfg) = true ∨ mkdirSync h (filePath cfg) = None) →
  let s := setupLogger cfg h module in
  returned s = configured cfg ∧
  current s = Some (configured cfg) ∧
  logger (current s) = (configured cfg, current s) ∧
  did s = (if existsSync h (filePath cfg) then [] else [Mkdir (filePath cfg)]) ++
          [Info (configured cfg) "Logger initialized"].
Proof.
  intros Hwinston Hdir s. subst s. unfold setupLogger, tryBlock.
  rewrite Hwinston.
  destruct (existsSync h (filePath cfg)); [done|].
  destruct Hdir as [Hdir| ->]; [discriminate|done].
Qed.

Lemma setupLogger_stores_configured_witness :
  logger (current (setupLogger toFiles writable None))
  = (configured toFiles, current (setupLogger toFiles writable None)).
Proof.
  apply (setupLogger_stores_configured toFiles writable None eq_refl
           (or_introl eq_refl)).
Defined.

(** X10.  When the try block of [setupLogger] faults, the fault is printed,
    a console-only fallback logger is returned, and the module's logger is
    left as it was: the fallback is not stored.  The accessor then hands out
    the logger that was there before, or builds the default logger, and
    never the fallback that was returned. *)
Theorem setupLogger_fault_not_stored cfg h module done e :
  tryBlock cfg h = (done, inl e) →
  module ≠ Some fallbackLogger →
  let s := setupLogger cfg h module in
  returned s = fallbackLogger ∧
  current s = module ∧
  last (did s) = Some (PrintError "Failed to initialize logger:" e) ∧
  fst (logger (current s)) = default defaultLogger module ∧
  fst (logger (current s)) ≠ returned s.
Proof.
  intros Htry Hmodule s. subst s. unfold setupLogger. rewrite Htry.
  cbn [returned current did].
  split; [done|]. split; [done|]. split; [by rewrite last_snoc|].
  destruct module as [l|]; cbn; (split; [done|]).
  - intros ->. by apply Hmodule.
  - discriminate.
Qed.

Lemma setupLogger_fault_not_stored_witness :
  fst (logger (current (setupLogger toFiles readOnly None))) = defaultLogger.
Proof.
  apply (setupLogger_fault_not_stored toFiles readOnly None
           [Mkdir "logs"]
           {| text := "Error: EROFS: read-only file system, mkdir";
              message := "EROFS: read-only file system, mkdir";
              stack := "Error: EROFS at Object.mkdirSync" |}
           eq_refl).
  discriminate.
Defined.

(** X11.  index.js reads the accessor once, on import, before [setupLogger]
    has run: the logger it holds is the default console logger, with no file
    transport.  Whatever [setupLogger] does afterwards, that is not the
    logger it creates or returns, so what index.js logs goes to the default
    logger even when the module has been switched to the configured one. *)
Theorem index_logger_is_default cfg h :
  let held := fst (indexStartup cfg h) in
  let s := snd (indexStartup cfg h) in
  held = defaultLogger ∧
  List.filter isFile (transports held) = [] ∧
  held ≠ returned s ∧
  (current s = Some (configured cfg) ∨ current s = Some held) ∧
  (current s = Some (configured cfg) → fst (logger (current s)) ≠ held).
Proof.
  intros held s. subst held s. unfold indexStartup. cbn [logger fst snd].
  split; [done|]. split; [done|].
  unfold setupLogger.
  destruct (tryBlock_cases cfg h) as [(done & e & ->)|(done & ->)];
    cbn [returned current logger fst].
  - split; [discriminate|]. split; [by right|]. discriminate.
  - split; [discriminate|]. split; [by left|]. discriminate.
Qed.

Example index_logs_miss_the_files :
  let held := fst (indexStartup toFiles writable) in
  let s := snd (indexStartup toFiles writable) in
  transports held = [Console (Some Colorize)] ∧
  List.filter isFile (transports (returned s))
  = [File "logs" "error.log" (Some "error") Printf;
     File "logs" "combined.log" None Printf] ∧
  current s = Some (returned s).
Proof. repeat split; reflexivity. Qed.

End LoggerFacts.
